(** * fabric-director: the failover control loop of [main.go]

    A shallow embedding of the node-local agent: the candidate policy
    ([closestNode]), the reroute controller ([setPFNet], [addRoute],
    [setReroute]), mesh teardown ([teardownGRE]), the prober
    ([icmpLatency]), one tick of the probe loop and the [/reroute] and
    [/noreroute] handler bodies.

    The kernel (netlink), the address parsers of package [net] and the
    [net.sh] script are reached through the [Platform] interface; every
    call that crosses it is recorded, with its result, in the [trace] of
    the [World], so that the order of the side effects can be stated.

    Debug-level log lines carry no behaviour and are left out; warnings and
    errors are kept as [LogEntry] values. *)

From Stdlib Require Import ZArith PrimFloat Uint63.
From stdpp Require Import base gmap strings list fin_maps pretty.

Local Open Scope Z_scope.

(** ** Data model *)

(** [time.Duration]: a signed count of nanoseconds. Only compared, never
    added, so no wrap-around arises. *)
Definition Duration : Type := Z.

Definition Millisecond : Duration := 1000000.

(** A Go [error] carries its message; [nil] is [None]. *)
Definition error : Type := string.

(** [type Node struct { ID uint8; IP string; Latency time.Duration }] *)
Record Node : Type := mkNode {
  ID : N;
  IP : string;
  Latency : Duration;
}.

#[global] Instance Node_eq_dec : EqDecision Node.
Proof. solve_decision. Defined.

(** The zero value of [Node], which a Go map lookup yields for a missing key. *)
Definition zeroNode : Node := mkNode 0 "" 0.

Definition withLatency (n : Node) (d : Duration) : Node :=
  mkNode (ID n) (IP n) d.

(** [type Config struct], the fields the control loop reads. *)
Record Config : Type := mkConfig {
  LocalID : N;
  Prefix4 : string;
  Prefix6 : string;
  LatencyThreshold : Duration;
  LossThreshold : float;
  Prefixes : list string;
  Nodes : gmap string Node;
}.

(** [net.IP] is a byte slice ([nil] is the empty list); [net.IPNet] pairs an
    address with a mask. *)
Definition NetIP : Type := list Z.

Record IPNet : Type := mkIPNet {
  NetAddr : NetIP;
  NetMask : list Z;
}.

#[global] Instance IPNet_eq_dec : EqDecision IPNet.
Proof. solve_decision. Defined.

(** [net.IP.To4]: the 4-byte form of an IPv4 address, also when it is held
    as an IPv4-mapped 16-byte address; [nil] otherwise. *)
Definition To4 (ip : NetIP) : NetIP :=
  if decide (length ip = 4%nat) then ip
  else if decide (length ip = 16%nat) then
    if bool_decide (take 10 ip = replicate 10 0)
       && bool_decide (ip !! 10%nat = Some 255)
       && bool_decide (ip !! 11%nat = Some 255)
    then drop 12 ip else []
  else [].

(** [netlink.Link], as far as the agent looks at it: name and index. *)
Record Link : Type := mkLink {
  LinkName : string;
  LinkIndex : Z;
}.

#[global] Instance Link_eq_dec : EqDecision Link.
Proof. solve_decision. Defined.

(** [netlink.Route], the fields the agent fills in. [SCOPE_UNIVERSE] is 0,
    also the zero value of the field. *)
Record Route : Type := mkRoute {
  Dst : IPNet;
  Gw : NetIP;
  Priority : Z;
  Scope : Z;
}.

#[global] Instance Route_eq_dec : EqDecision Route.
Proof. solve_decision. Defined.

Definition SCOPE_UNIVERSE : Z := 0.

(** ** The kernel boundary *)

(** The calls that leave the process. *)
Inductive KCall : Type :=
  | CallLinkList
  | CallLinkDel (l : Link)
  | CallRouteAdd (r : Route)
  | CallRouteDel (r : Route)
  | CallNetSh.

#[global] Instance KCall_eq_dec : EqDecision KCall.
Proof. solve_decision. Defined.

(** One recorded call: what was asked and the error it came back with. *)
Definition Event : Type := KCall * option error.

Definition ok (c : KCall) : Event := (c, None).

(** What the agent relies on without implementing it: [net.ParseCIDR]
    (its second result), [net.ParseIP], and the netlink and [exec] calls
    against a kernel state [kstate]. *)
Class Platform : Type := mkPlatform {
  kstate : Type;
  ParseCIDR : string -> error + IPNet;
  ParseIP : string -> NetIP;
  LinkList : kstate -> error + list Link;
  LinkDel : Link -> kstate -> option error * kstate;
  RouteAdd : Route -> kstate -> option error * kstate;
  RouteDel : Route -> kstate -> option error * kstate;
  RunNetSh : kstate -> option error * kstate;
}.

(** Warnings and errors the agent logs. *)
Inductive LogEntry : Type :=
  | WarnPing (name : string) (err : error)
  | ErrorTeardown (err : error).

(** What a handler leaves behind: the body it wrote, or a panic. *)
Inductive Outcome : Type :=
  | Responded (body : string)
  | Panicked (msg : string).

(** Go before 1.22 has one [node] variable for a whole [range] loop, from
    1.22 on one per iteration. [closestNode] takes the address of that
    variable, so the two differ there; the module file that fixes the
    language version is not among the sources, and both are modelled. *)
Inductive LoopVar : Type := PerIteration | PerLoop.

(** Where [closest] points: at the variable of one finished iteration, which
    keeps its value, or at the one loop variable. *)
Inductive NodePtr : Type :=
  | AddrIter (v : Node)
  | AddrLoop.

Definition deref (cur : Node) (p : NodePtr) : Node :=
  match p with
  | AddrIter v => v
  | AddrLoop => cur
  end.

Definition addrOf (sem : LoopVar) (cur : Node) : NodePtr :=
  match sem with
  | PerIteration => AddrIter cur
  | PerLoop => AddrLoop
  end.

(** The statistics of a finished go-ping run that [icmpLatency] reads. *)
Record Pinger : Type := mkPinger {
  PacketsSent : Z;
  PacketsRecv : Z;
  avgRtt : Duration;
}.

(** How a ping run ends: [ping.NewPinger] fails, [pinger.Run] fails, or the
    run finishes with its counters. *)
Inductive PingRun : Type :=
  | NewPingerFails (e : error)
  | RunFails (e : error)
  | RunDone (p : Pinger).

Definition nl : string := String (Stdlib.Strings.Ascii.ascii_of_nat 10) "".

(** ** Pure helpers *)

(** [internalIP]: [fmt.Sprintf("%s%d", prefix, node)], followed by
    [/mask] unless the mask is 0. *)
Definition internalIP (prefix : string) (node mask : N) : string :=
  let out := prefix +:+ pretty node in
  if decide (mask ≠ 0%N) then out +:+ "/" +:+ pretty mask else out.

(** [float64(n)] for an [int] counter. *)
Definition float64_of_int (n : Z) : float :=
  if n <? 0 then PrimFloat.opp (PrimFloat.of_uint63 (Uint63.of_Z (- n)))
  else PrimFloat.of_uint63 (Uint63.of_Z n).

(** go-ping's [Statistics()]: [PacketLoss] is
    [float64(sent-recv) / float64(sent) * 100], a percentage; [AvgRtt] is the
    running average, which stays 0 until a reply arrives. *)
Definition PacketLoss (p : Pinger) : float :=
  PrimFloat.mul
    (PrimFloat.div (float64_of_int (PacketsSent p - PacketsRecv p))
                   (float64_of_int (PacketsSent p)))
    100%float.

Definition AvgRtt (p : Pinger) : Duration := avgRtt p.



(** [icmpLatency]: the two error exits return zero latency and zero loss
    next to the error; a finished run returns its statistics. *)
Definition icmpLatency (run : PingRun) : Duration * float * option error :=
  match run with
  | NewPingerFails err => (0, 0%float, Some err)
  | RunFails err => (0, 0%float, Some err)
  | RunDone p => (AvgRtt p, PacketLoss p, None)
  end.

(** The candidate test of the probe loop. *)
Definition isCandidate (latency : Duration) (loss : float) (cfg : Config) : bool :=
  (latency <=? LatencyThreshold cfg) && PrimFloat.ltb loss (LossThreshold cfg).

(** [closestNode], over the entries of [candidateNodes] in the order the
    [range] statement visits them. The loop state is [closest],
    [closestName] and the current value of the loop variable [node]. *)
Fixpoint closestLoop (sem : LoopVar) (entries : list (string * Node))
    (closest : option NodePtr) (closestName : string) (cur : Node)
    : option NodePtr * string * Node :=
  match entries with
  | [] => (closest, closestName, cur)
  | (name, node) :: rest =>
      let better :=
        match closest with
        | None => true
        | Some p => Latency node <? Latency (deref node p)
        end in
      if better
      then closestLoop sem rest (Some (addrOf sem node)) name node
      else closestLoop sem rest closest closestName node
  end.

Definition closestNode (sem : LoopVar) (entries : list (string * Node))
    : option Node * string :=
  let '(closest, closestName, cur) := closestLoop sem entries None "" zeroNode in
  (deref cur <$> closest, closestName).

(** An order in which a [range] over the map [m] may visit it: Go leaves it
    unspecified, every entry is visited once. *)
Definition rangeOrder {A} (m : gmap string A) (entries : list (string * A)) : Prop :=
  entries ≡ₚ map_to_list m.

(** ** The agent over a platform *)

Section Agent.
Context {P : Platform}.

(** The process state: the kernel behind the boundary, the calls made so
    far, the global [candidateNodes] map, the three gauges and the log. The
    latency gauge is kept as the duration whose [Seconds()] is exported, the
    candidate gauge as the length it is set from. *)
Record World : Type := mkWorld {
  kern : kstate;
  trace : list Event;
  candidateNodes : gmap string Node;
  metricIsRerouting : Z;
  metricCandidateNodes : Z;
  metricNodeLatency : gmap (string * string) Duration;
  logs : list LogEntry;
}.

Definition setIsRerouting (v : Z) (w : World) : World :=
  mkWorld (kern w) (trace w) (candidateNodes w) v
          (metricCandidateNodes w) (metricNodeLatency w) (logs w).

Definition setCandidates (m : gmap string Node) (w : World) : World :=
  mkWorld (kern w) (trace w) m (metricIsRerouting w)
          (metricCandidateNodes w) (metricNodeLatency w) (logs w).

Definition setCandidateGauge (v : Z) (w : World) : World :=
  mkWorld (kern w) (trace w) (candidateNodes w) (metricIsRerouting w)
          v (metricNodeLatency w) (logs w).

Definition setLatencyGauge (src dst : string) (d : Duration) (w : World) : World :=
  mkWorld (kern w) (trace w) (candidateNodes w) (metricIsRerouting w)
          (metricCandidateNodes w) (<[(src, dst) := d]> (metricNodeLatency w))
          (logs w).

Definition addLog (e : LogEntry) (w : World) : World :=
  mkWorld (kern w) (trace w) (candidateNodes w) (metricIsRerouting w)
          (metricCandidateNodes w) (metricNodeLatency w) (logs w ++ [e]).

Definition kexec (c : KCall) (k : kstate) : option error * kstate :=
  match c with
  | CallLinkList =>
      (match LinkList k with inl err => Some err | inr _ => None end, k)
  | CallLinkDel l => LinkDel l k
  | CallRouteAdd r => RouteAdd r k
  | CallRouteDel r => RouteDel r k
  | CallNetSh => RunNetSh k
  end.

(** One call across the boundary, recorded with its result. *)
Definition call (c : KCall) (w : World) : option error * World :=
  let '(r, k) := kexec c (kern w) in
  (r, mkWorld k (trace w ++ [(c, r)]) (candidateNodes w)
              (metricIsRerouting w) (metricCandidateNodes w)
              (metricNodeLatency w) (logs w)).

(** [for _, x := range xs { if err := body(x); err != nil { return err } }] *)
Fixpoint rangeErr {A} (body : A -> World -> option error * World)
    (xs : list A) (w : World) : option error * World :=
  match xs with
  | [] => (None, w)
  | x :: rest =>
      match body x w with
      | (Some err, w') => (Some err, w')
      | (None, w') => rangeErr body rest w'
      end
  end.

(** The dummy link [setPFNet(false)] names: only its name is filled in. *)
Definition localDummy : Link := mkLink "local" 0.

(** [setPFNet]: run [net.sh] to turn local handling on, delete the link
    [local] to turn it off. *)
Definition setPFNet (state : bool) (w : World) : option error * World :=
  if state then call CallNetSh w else call (CallLinkDel localDummy) w.

(** The route [addRoute] installs for a parsed prefix. *)
Definition routeFor (ipNet : IPNet) (nexthop4 nexthop6 : string) : Route :=
  let nexthop :=
    if decide (To4 (NetAddr ipNet) ≠ []) then nexthop4 else nexthop6 in
  mkRoute ipNet (ParseIP nexthop) 1 0.

(** [addRoute] *)
Definition addRoute (prefix nexthop4 nexthop6 : string) (w : World)
    : option error * World :=
  match ParseCIDR prefix with
  | inl err => (Some err, w)
  | inr ipNet => call (CallRouteAdd (routeFor ipNet nexthop4 nexthop6)) w
  end.

(** The route the [else] branch of [setReroute] asks to delete, and the
    body of the loop of that branch. *)
Definition routeOf (ipNet : IPNet) : Route := mkRoute ipNet [] 0 SCOPE_UNIVERSE.

Definition delRoute (prefix : string) (w : World) : option error * World :=
  match ParseCIDR prefix with
  | inl err => (Some err, w)
  | inr ipNet => call (CallRouteDel (routeOf ipNet)) w
  end.

(** [setReroute] *)
Definition setReroute (reroute : bool) (prefixes : list string)
    (nexthop4 nexthop6 : string) (w : World) : option error * World :=
  if reroute then
    let w := setIsRerouting 1 w in
    match setPFNet false w with
    | (Some err, w) => (Some err, w)
    | (None, w) =>
        rangeErr (fun prefix => addRoute prefix nexthop4 nexthop6) prefixes w
    end
  else
    match rangeErr delRoute prefixes w with
    | (Some err, w) => (Some err, w)
    | (None, w) =>
        match setPFNet true w with
        | (Some err, w) => (Some err, w)
        | (None, w) => (None, setIsRerouting 0 w)
        end
    end.

(** [teardownGRE], the body of its loop first. *)
Definition delIfFabric (iface : Link) (w : World) : option error * World :=
  if String.prefix "fd-" (LinkName iface) then call (CallLinkDel iface) w
  else (None, w).

Definition teardownGRE (w : World) : option error * World :=
  match LinkList (kern w) with
  | inl err => (Some err, snd (call CallLinkList w))
  | inr links => rangeErr delIfFabric links (snd (call CallLinkList w))
  end.

(** The start of [main]: tear down what an earlier run left; an error is
    logged and the start goes on. *)
Definition startupTeardown (w : World) : World :=
  match teardownGRE w with
  | (Some err, w) => addLog (ErrorTeardown err) w
  | (None, w) => w
  end.

(** The body of the probe loop for one entry of [config.Nodes]; [ping]
    gives the outcome of a ping run from a source to a destination
    address at this tick. *)
Definition probeNode (cfg : Config) (localNodeName : string)
    (ping : string -> string -> PingRun)
    (w : World) (entry : string * Node) : World :=
  let '(name, node) := entry in
  if decide (ID node = LocalID cfg) then w
  else
    let '(latency, loss, err) :=
      icmpLatency (ping (internalIP (Prefix4 cfg) (LocalID cfg) 0)
                        (internalIP (Prefix4 cfg) (ID node) 0)) in
    let w := match err with
             | Some e => addLog (WarnPing name e) w
             | None => w
             end in
    let w :=
      if isCandidate latency loss cfg
      then setCandidates (<[name := withLatency node latency]> (candidateNodes w)) w
      else setCandidates (delete name (candidateNodes w)) w in
    let w := setCandidateGauge (Z.of_nat (size (candidateNodes w))) w in
    setLatencyGauge localNodeName name latency w.

(** One tick: the body for every entry, in the order [range] visits them. *)
Definition tick (cfg : Config) (localNodeName : string)
    (ping : string -> string -> PingRun)
    (entries : list (string * Node)) (w : World) : World :=
  foldl (probeNode cfg localNodeName ping) w entries.

(** The [/reroute] handler. [to] is the query parameter, empty when absent;
    [visit] is the order in which [closestNode] ranges over the candidates.
    With no candidate [closestNode] returns a nil pointer, and reading
    [node.ID] for the first argument of [setReroute] panics. *)
Definition rerouteHandler (sem : LoopVar) (cfg : Config)
    (visit : gmap string Node -> list (string * Node))
    (to : string) (w : World) : Outcome * World :=
  let '(node, to) :=
    if decide (to = "") then closestNode sem (visit (candidateNodes w))
    else (Some (default zeroNode (Nodes cfg !! to)), to) in
  match node with
  | None =>
      (Panicked "invalid memory address or nil pointer dereference", w)
  | Some node =>
      match setReroute true (Prefixes cfg)
              (internalIP (Prefix4 cfg) (ID node) 0)
              (internalIP (Prefix6 cfg) (ID node) 0) w with
      | (Some err, w) =>
          (Responded ("Error rerouting to " +:+ to +:+ ": " +:+ err +:+ nl), w)
      | (None, w) =>
          (Responded ("Rerouting to " +:+ to +:+ nl), w)
      end
  end.

(** The [/noreroute] handler. *)
Definition norerouteHandler (cfg : Config) (w : World) : Outcome * World :=
  match setReroute false (Prefixes cfg) "" "" w with
  | (Some err, w) =>
      (Responded ("Error disabling reroute: " +:+ err +:+ nl), w)
  | (None, w) => (Responded ("Reroute disabled" +:+ nl), w)
  end.

(** The calls a step added to the trace. *)
Definition newEvents (w w' : World) : list Event :=
  drop (length (trace w)) (trace w').

(** The prefixes parsed in order, if every one parses. *)
Definition parseAll (prefixes : list string) : option (list IPNet) :=
  mapM (fun p => match ParseCIDR p with
                 | inr ipNet => Some ipNet
                 | inl _ => None
                 end) prefixes.

(** Every call of a complete transition, in order: into the rerouted
    state, and out of it. *)
Definition fullPlan (reroute : bool) (nets : list IPNet)
    (nexthop4 nexthop6 : string) : list KCall :=
  if reroute then
    CallLinkDel localDummy
      :: ((fun n => CallRouteAdd (routeFor n nexthop4 nexthop6)) <$> nets)
  else
    ((fun n => CallRouteDel (routeOf n)) <$> nets) ++ [CallNetSh].

(** The links [teardownGRE] deletes: those named by the fabric's
    convention. *)
Definition fabricLinks (ls : list Link) : list Link :=
  filter (fun l => String.prefix "fd-" (LinkName l) = true) ls.

(** *** Loops as plans

    Each loop body of the agent decides, from its element alone, whether
    to stop with an error, to do nothing, or to make one call. *)
Definition viaCall {A} (plan : A -> error + option KCall)
    (x : A) (w : World) : option error * World :=
  match plan x with
  | inl err => (Some err, w)
  | inr None => (None, w)
  | inr (Some c) => call c w
  end.

Definition netPlan (mk : IPNet -> KCall) (prefix : string)
    : error + option KCall :=
  match ParseCIDR prefix with
  | inl err => inl err
  | inr ipNet => inr (Some (mk ipNet))
  end.

Definition addPlan (nexthop4 nexthop6 : string) : string -> error + option KCall :=
  netPlan (fun n => CallRouteAdd (routeFor n nexthop4 nexthop6)).

Definition delPlan : string -> error + option KCall :=
  netPlan (fun n => CallRouteDel (routeOf n)).

Definition fabricPlan (iface : Link) : error + option KCall :=
  inr (if String.prefix "fd-" (LinkName iface)
       then Some (CallLinkDel iface) else None).

(** The calls a plan makes over a list when nothing fails. *)
Definition callsOf {A} (plan : A -> error + option KCall) (xs : list A)
    : list KCall :=
  omap (fun x => match plan x with
                 | inr (Some c) => Some c
                 | _ => None
                 end) xs.

(** [Ran plan xs evs r]: a loop over [xs] can record the calls [evs] and
    end with [r]. It stops at the first element that is rejected or whose
    call fails; the elements after it are not looked at. *)
Inductive Ran {A} (plan : A -> error + option KCall)
    : list A -> list Event -> option error -> Prop :=
  | RanEnd : Ran plan [] [] None
  | RanSkip x xs evs r :
      plan x = inr None -> Ran plan xs evs r -> Ran plan (x :: xs) evs r
  | RanCall x xs c evs r :
      plan x = inr (Some c) -> Ran plan xs evs r ->
      Ran plan (x :: xs) ((c, None) :: evs) r
  | RanFail x xs c err :
      plan x = inr (Some c) -> Ran plan (x :: xs) [(c, Some err)] (Some err)
  | RanReject x xs err :
      plan x = inl err -> Ran plan (x :: xs) [] (Some err).

(** Two worlds that differ at most in the kernel and the trace. *)
Definition sameMemory (w w' : World) : Prop :=
  candidateNodes w' = candidateNodes w
  ∧ metricIsRerouting w' = metricIsRerouting w
  ∧ metricCandidateNodes w' = metricCandidateNodes w
  ∧ metricNodeLatency w' = metricNodeLatency w
  ∧ logs w' = logs w.

End Agent.

Arguments World : clear implicits.

(** ** A reference kernel

    The bookkeeping of the Linux kernel that the agent's calls depend on:
    links are found by index, or by name when the index is 0 (netlink's
    [ensureIndex]); a deletion that names no link by either fails with
    EINVAL, one whose index is not there with ENODEV; [RouteAdd]
    creates exclusively and fails on an existing destination and priority;
    [RouteDel] removes the first route to the destination and fails when
    there is none. The parsers and the effect of [net.sh] stay parameters. *)

Module Linux.

Record State : Type := mkState {
  links : list Link;
  routes : list Route;
}.

Definition resolve (l : Link) (k : State) : Z :=
  if decide (LinkIndex l = 0) then
    match List.find (fun x => bool_decide (LinkName x = LinkName l)) (links k) with
    | Some x => LinkIndex x
    | None => 0
    end
  else LinkIndex l.

Definition linkDel (l : Link) (k : State) : option error * State :=
  let idx := resolve l k in
  if decide (idx = 0) then (Some "invalid argument", k)
  else if existsb (fun x => bool_decide (LinkIndex x = idx)) (links k)
  then (None, mkState (filter (fun x => LinkIndex x ≠ idx) (links k)) (routes k))
  else (Some "no such device", k).

Definition routeKey (r : Route) : IPNet * Z := (Dst r, Priority r).

Definition routeAdd (r : Route) (k : State) : option error * State :=
  if bool_decide (routeKey r ∈ routeKey <$> routes k)
  then (Some "file exists", k)
  else (None, mkState (links k) (routes k ++ [r])).

Fixpoint removeFirst (d : IPNet) (rs : list Route) : option (list Route) :=
  match rs with
  | [] => None
  | r :: rest =>
      if decide (Dst r = d) then Some rest
      else cons r <$> removeFirst d rest
  end.

Definition routeDel (r : Route) (k : State) : option error * State :=
  match removeFirst (Dst r) (routes k) with
  | Some rs => (None, mkState (links k) rs)
  | None => (Some "no such process", k)
  end.

(** Names and indices of links are unique, and so are the destination and
    priority of routes. *)
Definition wf (k : State) : Prop :=
  NoDup (LinkName <$> links k) ∧ NoDup (LinkIndex <$> links k)
  ∧ NoDup (routeKey <$> routes k).

Definition platform (parseCIDR : string -> error + IPNet)
    (parseIP : string -> NetIP)
    (netsh : State -> option error * State) : Platform :=
  mkPlatform State parseCIDR parseIP (fun k => inr (links k))
             linkDel routeAdd routeDel netsh.

End Linux.

(** A platform with faults injected: a call for which [fails] names an error
    returns it and leaves the kernel as it is; every other call goes to the
    platform underneath. *)
Definition faulty (P : Platform) (fails : KCall -> option error) : Platform :=
  let guard (c : KCall) (run : @kstate P -> option error * @kstate P)
            (k : @kstate P) :=
    match fails c with
    | Some err => (Some err, k)
    | None => run k
    end in
  mkPlatform (@kstate P) (@ParseCIDR P) (@ParseIP P)
    (fun k => match fails CallLinkList with
              | Some err => inl err
              | None => @LinkList P k
              end)
    (fun l => guard (CallLinkDel l) (@LinkDel P l))
    (fun r => guard (CallRouteAdd r) (@RouteAdd P r))
    (fun r => guard (CallRouteDel r) (@RouteDel P r))
    (guard CallNetSh (@RunNetSh P)).

(** ** A sample deployment, for the worked examples *)

Module Sample.

Definition net4 : IPNet := mkIPNet [192; 0; 2; 0] [255; 255; 255; 0].
Definition net6 : IPNet :=
  mkIPNet [32; 1; 13; 184; 0; 0; 0; 0; 0; 0; 0; 0; 0; 0; 0; 0]
          [255; 255; 255; 255; 0; 0; 0; 0; 0; 0; 0; 0; 0; 0; 0; 0].

(** [net.ParseCIDR] on the strings of the examples; [bogus] stands for any
    string it rejects. *)
Definition parseCIDR (s : string) : error + IPNet :=
  if decide (s = "192.0.2.0/24") then inr net4
  else if decide (s = "2001:db8::/32") then inr net6
  else inl ("invalid CIDR address: " +:+ s).

(** [net.ParseIP] on the internal addresses of the examples. *)
Definition parseIP (s : string) : NetIP :=
  if decide (s = "172.17.104.0") then [172; 17; 104; 0]
  else if decide (s = "172.17.104.2") then [172; 17; 104; 2]
  else if decide (s = "172.17.104.3") then [172; 17; 104; 3]
  else if decide (s = "fd00::0") then [253; 0; 0; 0; 0; 0; 0; 0; 0; 0; 0; 0; 0; 0; 0; 0]
  else if decide (s = "fd00::2") then [253; 0; 0; 0; 0; 0; 0; 0; 0; 0; 0; 0; 0; 0; 0; 2]
  else if decide (s = "fd00::3") then [253; 0; 0; 0; 0; 0; 0; 0; 0; 0; 0; 0; 0; 0; 0; 3]
  else [].

(** [net.sh] taken to bring the link [local] back up. *)
Definition netsh (k : Linux.State) : option error * Linux.State :=
  if existsb (fun x => bool_decide (LinkName x = "local")) (Linux.links k)
  then (None, k)
  else (None, Linux.mkState (Linux.links k ++ [mkLink "local" 9]) (Linux.routes k)).

Definition linux : Platform := Linux.platform parseCIDR parseIP netsh.

Definition A : Node := mkNode 1 "198.51.100.1" 0.
Definition B : Node := mkNode 2 "198.51.100.2" 0.
Definition C : Node := mkNode 3 "198.51.100.3" 0.
Definition D : Node := mkNode 4 "198.51.100.4" 0.

(** Candidates [b] and [c] tied at 5 ms and [d] at 10 ms, in two orders in
    which a [range] may visit them. *)
Definition visitCBD : list (string * Node) :=
  [("c", withLatency C (5 * Millisecond));
   ("b", withLatency B (5 * Millisecond));
   ("d", withLatency D (10 * Millisecond))].

Definition visitBCD : list (string * Node) :=
  [("b", withLatency B (5 * Millisecond));
   ("c", withLatency C (5 * Millisecond));
   ("d", withLatency D (10 * Millisecond))].

Definition tied : gmap string Node := list_to_map visitCBD.

(** Three peers, [a] local; latency at most 100 ms, loss below 0.125. *)
Definition config : Config :=
  mkConfig 1 "172.17.104." "fd00::" (100 * Millisecond) 0.125%float
           ["192.0.2.0/24"; "2001:db8::/32"]
           (<["a" := A]> (<["b" := B]> (<["c" := C]> ∅))).

(** Local handling on, tunnels to [b] and [c] up, no peer route. *)
Definition boot : Linux.State :=
  Linux.mkState [mkLink "lo" 1; mkLink "local" 2; mkLink "fd-b" 3; mkLink "fd-c" 4] [].

Definition world0 (P : Platform) (k : @kstate P) : World P :=
  mkWorld k [] ∅ 0 0 ∅ [].

Definition started : World linux := world0 linux boot.

(** The internal addresses of [b]. *)
Definition b4 : string := internalIP (Prefix4 config) (ID B) 0.
Definition b6 : string := internalIP (Prefix6 config) (ID B) 0.

(** The world after a reroute to [b] from the start. *)
Definition rerouted : World linux :=
  snd (setReroute true (Prefixes config) b4 b6 started).

(** The same kernel, refusing to delete the tunnel to [b]. *)
Definition busy (c : KCall) : option error :=
  if decide (c = CallLinkDel (mkLink "fd-b" 3))
  then Some "device or resource busy" else None.

Definition flaky : Platform := faulty linux busy.

(** The same kernel again, were it to let the deletion of an absent link
    pass as a success. *)
Definition lenient : Platform :=
  mkPlatform Linux.State parseCIDR parseIP (fun k => inr (Linux.links k))
             (fun l k => (None, snd (Linux.linkDel l k)))
             Linux.routeAdd Linux.routeDel netsh.

(** An order in which the probe loop may visit [config.Nodes]. *)
Definition visitABC : list (string * Node) := [("a", A); ("b", B); ("c", C)].

(** A tick at which the prober cannot run at all. *)
Definition pingDown (src dst : string) : PingRun :=
  RunFails "socket: operation not permitted".

(** A tick at which the prober runs and no reply comes back. *)
Definition pingSilent (src dst : string) : PingRun :=
  RunDone (mkPinger 3 0 0).


(** The world after a tick that measured [b] at 40 ms and found [c] too slow. *)
Definition sampled : World linux :=
  @mkWorld linux boot [] {["b" := withLatency B (40 * Millisecond)]} 0 1
          {[("a", "b") := 40 * Millisecond; ("a", "c") := 150 * Millisecond]} [].

End Sample.

(** ** Startup: the local node and the tunnel mesh *)

(** The loop of [main] that looks for the local node: the first entry, in
    visiting order, whose ID is the local one gives [localNodeName] and
    [localNodeIP]; both stay empty when there is none. *)
Fixpoint findLocal (localID : N) (entries : list (string * Node))
    : string * string :=
  match entries with
  | [] => ("", "")
  | (name, node) :: rest =>
      if decide (ID node = localID) then (name, IP node)
      else findLocal localID rest
  end.

(** The check after that loop: [log.Fatalf] ([None]) when the IP or the
    name is empty, otherwise the start goes on with the two. *)
Definition localNode (cfg : Config) (entries : list (string * Node))
    : option (string * string) :=
  let '(localNodeName, localNodeIP) := findLocal (LocalID cfg) entries in
  if decide (localNodeIP = "" ∨ localNodeName = "") then None
  else Some (localNodeName, localNodeIP).

(** [netlink.Gretun], the fields [addGRE] fills in. *)
Record Gretun : Type := mkGretun {
  GreName : string;
  GreMTU : Z;
  GreLocal : NetIP;
  GreRemote : NetIP;
}.

(** The calls of mesh construction that leave the process. The link of the
    last two is the tunnel with the index the kernel gave it. *)
Inductive MeshCall : Type :=
  | CallLinkAdd (g : Gretun)
  | CallAddrAdd (l : Link) (a : IPNet)
  | CallLinkSetUp (l : Link).

Definition MeshEvent : Type := MeshCall * option error.

(** What [main] logs while it builds the mesh. *)
Inductive MeshLog : Type :=
  | InfoAddingTunnel (name : string)
  | WarnTunnel (err : error).

(** The platform with what mesh construction needs on top: [net.ParseCIDR]
    with both its results (the address as written and the network), and
    the netlink calls that create a link (returning its index), give it an
    address and bring it up. *)
Class MeshPlatform : Type := mkMeshPlatform {
  meshBase :: Platform;
  ParseCIDRBoth : string -> error + (NetIP * IPNet);
  LinkAdd : Gretun -> kstate -> (error + Z) * kstate;
  AddrAdd : Link -> IPNet -> kstate -> option error * kstate;
  LinkSetUp : Link -> kstate -> option error * kstate;
}.

Section MeshAgent.
Context {MP : MeshPlatform}.

(** The state of mesh construction: the kernel, the calls made and the log. *)
Record MeshWorld : Type := mkMeshWorld {
  mkern : kstate;
  mtrace : list MeshEvent;
  mlogs : list MeshLog;
}.

Definition meshLog (e : MeshLog) (mw : MeshWorld) : MeshWorld :=
  mkMeshWorld (mkern mw) (mtrace mw) (mlogs mw ++ [e]).

(** One call, recorded with its error. *)
Definition meshCall (c : MeshCall) (run : kstate -> option error * kstate)
    (mw : MeshWorld) : option error * MeshWorld :=
  let '(r, k) := run (mkern mw) in
  (r, mkMeshWorld k (mtrace mw ++ [(c, r)]) (mlogs mw)).

(** [parseCIDR]: the address as written, with the mask of the network. *)
Definition parseCIDR (cidr : string) : error + IPNet :=
  match ParseCIDRBoth cidr with
  | inl err => inl err
  | inr (ip, ipNet) => inr (mkIPNet ip (NetMask ipNet))
  end.

(** The tunnel [addGRE] asks for. *)
Definition gretunFor (name local remote : string) : Gretun :=
  mkGretun name 1436 (ParseIP local) (ParseIP remote).

(** [addGRE]: the index of the new tunnel, or -1 with the wrapped error. *)
Definition addGRE (name local remote ip4 ip6 : string) (mw : MeshWorld)
    : (Z * option error) * MeshWorld :=
  let gre := gretunFor name local remote in
  let '(added, k) := LinkAdd gre (mkern mw) in
  match added with
  | inl err =>
      ((-1, Some ("error adding GRE tunnel " +:+ name +:+ ": " +:+ err)),
       mkMeshWorld k (mtrace mw ++ [(CallLinkAdd gre, Some err)]) (mlogs mw))
  | inr index =>
      let mw := mkMeshWorld k (mtrace mw ++ [(CallLinkAdd gre, None)]) (mlogs mw) in
      let link := mkLink name index in
      match parseCIDR ip4 with
      | inl err =>
          ((-1, Some ("error parsing IPv4 " +:+ ip4 +:+ " for GRE interface "
                      +:+ name +:+ ": " +:+ err)), mw)
      | inr ipNet4 =>
          match parseCIDR ip6 with
          | inl err =>
              ((-1, Some ("error parsing IPv6 " +:+ ip6 +:+ " for GRE interface "
                          +:+ name +:+ ": " +:+ err)), mw)
          | inr ipNet6 =>
              match meshCall (CallAddrAdd link ipNet4) (AddrAdd link ipNet4) mw with
              | (Some err, mw) =>
                  ((-1, Some ("error adding IPv4 " +:+ ip4 +:+ " to GRE interface "
                              +:+ name +:+ ": " +:+ err)), mw)
              | (None, mw) =>
                  match meshCall (CallAddrAdd link ipNet6) (AddrAdd link ipNet6) mw with
                  | (Some err, mw) =>
                      ((-1, Some ("error adding IPv6 " +:+ ip6
                                  +:+ " to GRE interface " +:+ name +:+ ": " +:+ err)),
                       mw)
                  | (None, mw) =>
                      match meshCall (CallLinkSetUp link) (LinkSetUp link) mw with
                      | (Some err, mw) =>
                          ((-1, Some ("error bringing up GRE interface " +:+ name
                                      +:+ ": " +:+ err)), mw)
                      | (None, mw) => ((index, None), mw)
                      end
                  end
              end
          end
      end
  end.

(** The body of the loop of [main] that creates the tunnels, for one entry
    of [config.Nodes]. *)
Definition meshNode (cfg : Config) (localNodeIP : string)
    (mw : MeshWorld) (entry : string * Node) : MeshWorld :=
  let '(name, node) := entry in
  if decide (ID node = LocalID cfg) then mw
  else
    let mw := meshLog (InfoAddingTunnel name) mw in
    match addGRE ("fd-" +:+ name) localNodeIP (IP node)
            (internalIP (Prefix4 cfg) (LocalID cfg) 24)
            (internalIP (Prefix6 cfg) (LocalID cfg) 112) mw with
    | ((_, Some err), mw) => meshLog (WarnTunnel err) mw
    | ((_, None), mw) => mw
    end.

Definition buildMesh (cfg : Config) (localNodeIP : string)
    (entries : list (string * Node)) (mw : MeshWorld) : MeshWorld :=
  foldl (meshNode cfg localNodeIP) mw entries.

(** The tunnels a trace asked the kernel to create, in order. *)
Definition linkAdds (evs : list MeshEvent) : list Gretun :=
  omap (fun ev => match fst ev with
                  | CallLinkAdd g => Some g
                  | _ => None
                  end) evs.

(** The entries of [config.Nodes] the loops do not skip. *)
Definition peersOf (cfg : Config) (entries : list (string * Node))
    : list (string * Node) :=
  filter (fun e => ID (snd e) ≠ LocalID cfg) entries.

End MeshAgent.

Arguments MeshWorld : clear implicits.

(** A sample kernel for mesh construction, on the reference kernel: a new
    link gets the next free index and is refused when its name is taken;
    addresses and the up state are not kept, the two calls only need the
    link to be there. *)

Module MeshSample.

Definition host4 : NetIP := [172; 17; 104; 1].
Definition host6 : NetIP := [253; 0; 0; 0; 0; 0; 0; 0; 0; 0; 0; 0; 0; 0; 0; 1].
Definition lan4 : IPNet := mkIPNet [172; 17; 104; 0] [255; 255; 255; 0].
Definition lan6 : IPNet :=
  mkIPNet [253; 0; 0; 0; 0; 0; 0; 0; 0; 0; 0; 0; 0; 0; 0; 0]
          [255; 255; 255; 255; 255; 255; 255; 255; 255; 255; 255; 255; 255; 255; 0; 0].

(** [net.ParseCIDR] on the two internal addresses of the local node. *)
Definition parseBoth (s : string) : error + (NetIP * IPNet) :=
  if decide (s = "172.17.104.1/24") then inr (host4, lan4)
  else if decide (s = "fd00::1/112") then inr (host6, lan6)
  else inl ("invalid CIDR address: " +:+ s).

Definition linkAdd (g : Gretun) (k : Linux.State) : (error + Z) * Linux.State :=
  if existsb (fun x => bool_decide (LinkName x = GreName g)) (Linux.links k)
  then (inl "file exists", k)
  else
    let index := 1 + foldr Z.max 0 (LinkIndex <$> Linux.links k) in
    (inr index,
     Linux.mkState (Linux.links k ++ [mkLink (GreName g) index]) (Linux.routes k)).

Definition needsLink (l : Link) (k : Linux.State) : option error * Linux.State :=
  if existsb (fun x => bool_decide (LinkIndex x = LinkIndex l)) (Linux.links k)
  then (None, k) else (Some "no such device", k).

(** [net.ParseIP] on the external addresses of the sample's nodes. *)
Definition parseIP (s : string) : NetIP :=
  if decide (s = "198.51.100.1") then [198; 51; 100; 1]
  else if decide (s = "198.51.100.2") then [198; 51; 100; 2]
  else if decide (s = "198.51.100.3") then [198; 51; 100; 3]
  else Sample.parseIP s.

Definition platform : MeshPlatform :=
  mkMeshPlatform (Linux.platform Sample.parseCIDR parseIP Sample.netsh)
                 parseBoth linkAdd (fun l _ => needsLink l) needsLink.

(** The kernel before the mesh is built. *)
Definition bare : Linux.State :=
  Linux.mkState [mkLink "lo" 1; mkLink "local" 2] [].

Definition start : MeshWorld platform := @mkMeshWorld platform bare [] [].

(** The sample configuration with the dot of the IPv4 prefix forgotten. *)
Definition misconfigured : Config :=
  mkConfig 1 "172.17.104" "fd00::" (100 * Millisecond) 0.125%float
           ["192.0.2.0/24"; "2001:db8::/32"] (Nodes Sample.config).

End MeshSample.

(** ** Reading the probe loop *)

(** What this tick's probe of a node makes of it: the candidate record, or
    none when the sample fails the test. *)
Definition sampleOf (cfg : Config) (ping : string -> string -> PingRun)
    (node : Node) : option Node :=
  let '(latency, loss, _) :=
    icmpLatency (ping (internalIP (Prefix4 cfg) (LocalID cfg) 0)
                      (internalIP (Prefix4 cfg) (ID node) 0)) in
  if isCandidate latency loss cfg then Some (withLatency node latency) else None.

(** Every candidate is a configured node other than the local one, held
    with some latency within the threshold. *)
Definition candidatesSound (cfg : Config) (m : gmap string Node) : Prop :=
  ∀ name c, m !! name = Some c ->
    ∃ node, Nodes cfg !! name = Some node
            ∧ ID node ≠ LocalID cfg
            ∧ c = withLatency node (Latency c)
            ∧ Latency c <= LatencyThreshold cfg.

(** * Properties *)

(** ** Calls and loops, over any platform *)

Section Traces.
Context {P : Platform}.
Implicit Types (w : World P) (c : KCall) (evs : list Event).

Lemma sameMemory_refl w : sameMemory w w.
Proof. by repeat split. Qed.

Lemma sameMemory_trans w1 w2 w3 :
  sameMemory w1 w2 -> sameMemory w2 w3 -> sameMemory w1 w3.
Proof.
  intros (?&?&?&?&?) (?&?&?&?&?). repeat split; congruence.
Qed.

Lemma call_inv c w r w' :
  call c w = (r, w') ->
  kexec c (kern w) = (r, kern w') ∧ trace w' = trace w ++ [(c, r)]
  ∧ sameMemory w w'.
Proof.
  unfold call. destruct (kexec c (kern w)) as [r0 k] eqn:E.
  intros [= <- <-]. by repeat split.
Qed.

Lemma newEvents_app w w' evs :
  trace w' = trace w ++ evs -> newEvents w w' = evs.
Proof.
  intros H. unfold newEvents. rewrite H. by rewrite drop_app_length.
Qed.

Lemma rangeErr_ext {A} (f g : A -> World P -> option error * World P) xs w :
  (∀ x w, f x w = g x w) -> rangeErr f xs w = rangeErr g xs w.
Proof.
  intros Hfg. revert w. induction xs as [|x xs IH]; intros w; simpl; [done|].
  rewrite Hfg. destruct (g x w) as [[err|] w1]; [done|]. apply IH.
Qed.

Lemma addRoute_plan nh4 nh6 prefix w :
  addRoute prefix nh4 nh6 w = viaCall (addPlan nh4 nh6) prefix w.
Proof.
  unfold addRoute, viaCall, addPlan, netPlan. by destruct (ParseCIDR prefix).
Qed.

Lemma delRoute_plan prefix w : delRoute prefix w = viaCall delPlan prefix w.
Proof.
  unfold delRoute, viaCall, delPlan, netPlan. by destruct (ParseCIDR prefix).
Qed.

Lemma delIfFabric_plan iface w :
  delIfFabric iface w = viaCall fabricPlan iface w.
Proof.
  unfold delIfFabric, viaCall, fabricPlan.
  by destruct (String.prefix "fd-" (LinkName iface)).
Qed.

(** A loop run on a world records exactly a run of its plan. *)
Lemma rangeErr_Ran {A} (plan : A -> error + option KCall) xs w r w' :
  rangeErr (viaCall plan) xs w = (r, w') ->
  ∃ evs, trace w' = trace w ++ evs ∧ Ran plan xs evs r ∧ sameMemory w w'.
Proof.
  revert w. induction xs as [|x xs IH]; intros w; simpl.
  - intros [= <- <-]. exists []. rewrite app_nil_r.
    split; [done|]. split; [constructor | apply sameMemory_refl].
  - unfold viaCall at 1. destruct (plan x) as [err|[c|]] eqn:Hp.
    + intros [= <- <-]. exists []. rewrite app_nil_r.
      split; [done|]. split; [by constructor | apply sameMemory_refl].
    + destruct (call c w) as [[err|] w1] eqn:Hc;
        apply call_inv in Hc as (_ & Ht & Hm).
      * intros [= <- <-]. exists [(c, Some err)].
        split; [done|]. split; [by constructor | done].
      * intros Hrun. apply IH in Hrun as (evs & Ht' & Hran & Hm').
        exists ((c, None) :: evs). split.
        { rewrite Ht', Ht, <- app_assoc. done. }
        split; [by constructor | by eapply sameMemory_trans].
    + intros Hrun. apply IH in Hrun as (evs & Ht' & Hran & Hm').
      exists evs. split; [done|]. split; [by constructor | done].
Qed.

(** A run that ends without error made every planned call, each with
    success, and rejected no element. *)
Lemma Ran_success {A} (plan : A -> error + option KCall) xs evs :
  Ran plan xs evs None ->
  evs = ok <$> callsOf plan xs ∧ Forall (fun x => ∃ o, plan x = inr o) xs.
Proof.
  intros H. remember None as r eqn:Hr. induction H; try discriminate.
  - done.
  - destruct (IHRan Hr) as [-> HF]. split.
    + unfold callsOf. simpl. by rewrite H.
    + constructor; eauto.
  - destruct (IHRan Hr) as [-> HF]. split.
    + unfold callsOf. simpl. by rewrite H.
    + constructor; eauto.
Qed.

(** A run that ends with an error stopped at one element: the calls
    before it succeeded, the element was rejected or its call failed with
    the error returned, and nothing after it was called. *)
Lemma Ran_failure {A} (plan : A -> error + option KCall) xs evs err :
  Ran plan xs evs (Some err) ->
  ∃ done x rest,
    xs = done ++ x :: rest
    ∧ Forall (fun y => ∃ o, plan y = inr o) done
    ∧ ((plan x = inl err ∧ evs = ok <$> callsOf plan done)
       ∨ (∃ c, plan x = inr (Some c)
               ∧ evs = (ok <$> callsOf plan done) ++ [(c, Some err)])).
Proof.
  intros H. remember (Some err) as r eqn:Hr. induction H; try discriminate.
  - destruct (IHRan Hr) as (dn & y & rest & -> & HF & Hcase).
    exists (x :: dn), y, rest. split; [done|]. split; [constructor; eauto|].
    unfold callsOf. simpl. rewrite H. exact Hcase.
  - destruct (IHRan Hr) as (dn & y & rest & -> & HF & Hcase).
    exists (x :: dn), y, rest. split; [done|]. split; [constructor; eauto|].
    unfold callsOf. simpl. rewrite H. simpl.
    destruct Hcase as [[? ->]|(c' & ? & ->)]; [by left|right; eauto].
  - injection Hr as ->. exists [], x, xs. split; [done|]. split; [constructor|].
    right. eauto.
  - injection Hr as ->. exists [], x, xs. split; [done|]. split; [constructor|].
    by left.
Qed.

(** An error recorded in a run is the error the run ends with. *)
Lemma Ran_error_returned {A} (plan : A -> error + option KCall) xs evs r c err :
  Ran plan xs evs r -> (c, Some err) ∈ evs -> r = Some err.
Proof.
  induction 1; intros Hin.
  - by apply elem_of_nil in Hin.
  - auto.
  - apply elem_of_cons in Hin as [[=]|Hin]; auto.
  - apply elem_of_cons in Hin as [[= -> ->]|Hin]; [done|].
    by apply elem_of_nil in Hin.
  - by apply elem_of_nil in Hin.
Qed.

(** Every call of a run is one its plan makes for some element. *)
Lemma Ran_calls_planned {A} (plan : A -> error + option KCall) xs evs r c res :
  Ran plan xs evs r -> (c, res) ∈ evs -> ∃ x, x ∈ xs ∧ plan x = inr (Some c).
Proof.
  induction 1; intros Hin.
  - by apply elem_of_nil in Hin.
  - destruct (IHRan Hin) as (y & ? & ?). exists y. split; [by right|done].
  - apply elem_of_cons in Hin as [[= -> ->]|Hin].
    + exists x. split; [by left|done].
    + destruct (IHRan Hin) as (y & ? & ?). exists y. split; [by right|done].
  - apply elem_of_cons in Hin as [[= -> ->]|Hin].
    + exists x. split; [by left|done].
    + by apply elem_of_nil in Hin.
  - by apply elem_of_nil in Hin.
Qed.

Lemma callsOf_cons {A} (plan : A -> error + option KCall) x xs :
  callsOf plan (x :: xs) =
  match plan x with
  | inr (Some c) => c :: callsOf plan xs
  | _ => callsOf plan xs
  end.
Proof. unfold callsOf. simpl. by destruct (plan x) as [|[|]]. Qed.

(** Over prefixes that all parse, the calls of a per-prefix plan are the
    plan's call for each parsed network. *)
Lemma netPlan_calls (mk : IPNet -> KCall) prefixes :
  Forall (fun p => ∃ o, netPlan mk p = inr o) prefixes ->
  ∃ nets, parseAll prefixes = Some nets
          ∧ callsOf (netPlan mk) prefixes = mk <$> nets.
Proof.
  induction 1 as [|p ps [o Ho] _ (nets & Hn & Hc)].
  - by exists [].
  - assert (∃ n, ParseCIDR p = inr n) as [n Hp].
    { unfold netPlan in Ho. destruct (ParseCIDR p); [done|eauto]. }
    exists (n :: nets). split.
    + unfold parseAll in *. cbn [mapM]. rewrite Hp, Hn. done.
    + rewrite callsOf_cons. unfold netPlan at 1. rewrite Hp, Hc. done.
Qed.

Lemma netPlan_call_shape (mk : IPNet -> KCall) p c :
  netPlan mk p = inr (Some c) -> ∃ n, c = mk n.
Proof.
  unfold netPlan. destruct (ParseCIDR p) as [|n]; [done|].
  intros [= <-]. by exists n.
Qed.

(** Where the last element of a list sits when it occurs nowhere before. *)
Lemma last_occurrence {A} (l1 l2 l3 : list A) a b :
  l1 ++ [a] = l2 ++ b :: l3 -> b ∉ l1 -> l2 = l1 ∧ l3 = [] ∧ a = b.
Proof.
  revert l2. induction l1 as [|x l1 IH]; intros [|y l2] H Hb; simpl in H.
  - by injection H as -> <-.
  - injection H as _ H. by destruct l2.
  - injection H as -> _. exfalso. apply Hb. by left.
  - injection H as -> H. apply IH in H as (-> & -> & ->); [done|].
    intros ?. apply Hb. by right.
Qed.

(** [setReroute(true, ...)]: raise the gauge, delete the link [local],
    and, if that worked, add the routes. *)
Lemma setReroute_enter_inv prefixes nh4 nh6 w r w' :
  setReroute true prefixes nh4 nh6 w = (r, w') ->
  ∃ r0 evs,
    trace w' = trace w ++ (CallLinkDel localDummy, r0) :: evs
    ∧ metricIsRerouting w' = 1
    ∧ match r0 with
      | Some err => r = Some err ∧ evs = []
      | None => Ran (addPlan nh4 nh6) prefixes evs r
      end.
Proof.
  unfold setReroute, setPFNet.
  destruct (call (CallLinkDel localDummy) (setIsRerouting 1 w))
    as [[err|] w1] eqn:Hc; apply call_inv in Hc as (_ & Ht & Hm).
  - intros [= <- <-]. exists (Some err), []. split; [done|].
    split; [apply Hm | done].
  - rewrite (rangeErr_ext _ (viaCall (addPlan nh4 nh6)))
      by apply addRoute_plan.
    intros (evs & Ht' & Hran & Hm')%rangeErr_Ran.
    exists None, evs. split.
    { rewrite Ht', Ht, <- app_assoc. done. }
    split; [|done].
    destruct Hm as (_ & Hg & _), Hm' as (_ & Hg' & _). by rewrite Hg', Hg.
Qed.

(** [setReroute(false, ...)]: delete the routes, and, if that worked, run
    [net.sh] and lower the gauge. *)
Lemma setReroute_leave_inv prefixes nh4 nh6 w r w' :
  setReroute false prefixes nh4 nh6 w = (r, w') ->
  ∃ r0 evs,
    Ran delPlan prefixes evs r0
    ∧ match r0 with
      | Some err => r = Some err ∧ trace w' = trace w ++ evs
      | None =>
          trace w' = trace w ++ evs ++ [(CallNetSh, r)]
          ∧ (r = None -> metricIsRerouting w' = 0)
      end.
Proof.
  unfold setReroute, setPFNet.
  rewrite (rangeErr_ext _ (viaCall delPlan)) by apply delRoute_plan.
  destruct (rangeErr (viaCall delPlan) prefixes w) as [r0 w1] eqn:Hrun.
  apply rangeErr_Ran in Hrun as (evs & Ht & Hran & Hm).
  intros Hs. exists r0, evs. split; [done|]. destruct r0 as [err|].
  - by injection Hs as <- <-.
  - destruct (call CallNetSh w1) as [[err|] w2] eqn:Hc;
      apply call_inv in Hc as (_ & Ht' & Hm'); injection Hs as <- <-.
    + split; [|done]. rewrite Ht', Ht, <- app_assoc. done.
    + split; [|done]. simpl. rewrite Ht', Ht, <- app_assoc. done.
Qed.

End Traces.

(** ** The reroute controller *)

Section Controller.
Context {P : Platform}.
Implicit Types (w : World P).

(** C7. [setReroute] returns no error only when the whole transition was
    carried out: every prefix parsed, and the calls it made are exactly
    the calls of the complete transition, each of which succeeded (with
    the gauge at its new value). An error that any call came back with is
    the error [setReroute] returns, and a prefix that does not parse makes
    it return an error as well. *)
Theorem setReroute_success_is_complete
    (reroute : bool) prefixes nh4 nh6 w r w' :
  setReroute reroute prefixes nh4 nh6 w = (r, w') ->
  (r = None ->
   ∃ nets, parseAll prefixes = Some nets
           ∧ newEvents w w' = ok <$> fullPlan reroute nets nh4 nh6
           ∧ metricIsRerouting w' = (if reroute then 1 else 0))
  ∧ (∀ c err, (c, Some err) ∈ newEvents w w' -> r = Some err)
  ∧ (parseAll prefixes = None -> r ≠ None).
Proof.
  intros Hs.
  assert (r = None ->
          ∃ nets, parseAll prefixes = Some nets
                  ∧ newEvents w w' = ok <$> fullPlan reroute nets nh4 nh6
                  ∧ metricIsRerouting w' = (if reroute then 1 else 0)) as Hok.
  { intros ->. destruct reroute.
    - apply setReroute_enter_inv in Hs as (r0 & evs & Ht & Hg & Hr).
      destruct r0 as [err|]; [by destruct Hr|].
      apply Ran_success in Hr as [-> HF].
      apply (netPlan_calls (fun n => CallRouteAdd (routeFor n nh4 nh6)))
        in HF as (nets & Hn & Hc).
      exists nets. split; [done|]. split; [|done].
      rewrite (newEvents_app _ _ _ Ht). unfold addPlan. rewrite Hc. done.
    - apply setReroute_leave_inv in Hs as (r0 & evs & Hran & Hr).
      destruct r0 as [err|]; [by destruct Hr|]. destruct Hr as [Ht Hg].
      apply Ran_success in Hran as [-> HF].
      apply (netPlan_calls (fun n => CallRouteDel (routeOf n)))
        in HF as (nets & Hn & Hc).
      exists nets. split; [done|]. split; [|by apply Hg].
      rewrite (newEvents_app _ _ _ Ht). unfold delPlan. rewrite Hc.
      simpl. by rewrite fmap_app. }
  split; [done|]. split.
  - intros c err Hin. destruct reroute.
    + apply setReroute_enter_inv in Hs as (r0 & evs & Ht & _ & Hr).
      rewrite (newEvents_app _ _ _ Ht) in Hin.
      apply elem_of_cons in Hin as [[= -> <-]|Hin]; [by destruct Hr|].
      destruct r0 as [err0|].
      * destruct Hr as [_ ->]. by apply elem_of_nil in Hin.
      * by eapply Ran_error_returned.
    + apply setReroute_leave_inv in Hs as (r0 & evs & Hran & Hr).
      destruct r0 as [err0|].
      * destruct Hr as [-> Ht]. rewrite (newEvents_app _ _ _ Ht) in Hin.
        by eapply Ran_error_returned.
      * destruct Hr as [Ht _]. rewrite (newEvents_app _ _ _ Ht) in Hin.
        apply elem_of_app in Hin as [Hin|Hin].
        { by pose proof (Ran_error_returned _ _ _ _ _ _ Hran Hin). }
        apply list_elem_of_singleton in Hin. by injection Hin as _ <-.
  - intros Hnone ->. destruct (Hok eq_refl) as (nets & Hn & _). congruence.
Qed.

(** C4. The order of the transition. Into the rerouted state: whenever a
    route is added, the first call of the transition was the deletion of
    the link [local], and it had succeeded. Out of it: whenever [net.sh]
    is run, it is the last call, every prefix had parsed, and the calls
    before it are the successful deletions of the route of every prefix. *)
Theorem setReroute_ordering prefixes nh4 nh6 w r w' :
  (setReroute true prefixes nh4 nh6 w = (r, w') ->
   ∀ pre rt res post,
     newEvents w w' = pre ++ (CallRouteAdd rt, res) :: post ->
     ∃ pre', pre = ok (CallLinkDel localDummy) :: pre')
  ∧ (setReroute false prefixes nh4 nh6 w = (r, w') ->
     ∀ pre res post,
       newEvents w w' = pre ++ (CallNetSh, res) :: post ->
       post = []
       ∧ ∃ nets, parseAll prefixes = Some nets
                 ∧ pre = ok <$> ((fun n => CallRouteDel (routeOf n)) <$> nets)).
Proof.
  split; intros Hs.
  - intros pre rt res post Hev.
    apply setReroute_enter_inv in Hs as (r0 & evs & Ht & _ & Hr).
    rewrite (newEvents_app _ _ _ Ht) in Hev.
    destruct pre as [|ev pre']; [done|]. injection Hev as <- Hev.
    destruct r0 as [err|].
    + destruct Hr as [_ ->]. by destruct pre'.
    + by exists pre'.
  - intros pre res post Hev.
    apply setReroute_leave_inv in Hs as (r0 & evs & Hran & Hr).
    assert ((CallNetSh, res) ∉ evs) as Hnotin.
    { intros Hin.
      destruct (Ran_calls_planned _ _ _ _ _ _ Hran Hin) as (p & _ & Hp).
      by apply netPlan_call_shape in Hp as [n ?]. }
    destruct r0 as [err|].
    + destruct Hr as [_ Ht]. rewrite (newEvents_app _ _ _ Ht) in Hev.
      exfalso. apply Hnotin. rewrite Hev. apply elem_of_app. right. by left.
    + destruct Hr as [Ht _]. rewrite (newEvents_app _ _ _ Ht) in Hev.
      apply last_occurrence in Hev as (-> & -> & _); [|done].
      split; [done|]. apply Ran_success in Hran as [-> HF].
      apply (netPlan_calls (fun n => CallRouteDel (routeOf n)))
        in HF as (nets & Hn & Hc).
      exists nets. split; [done|]. unfold delPlan. by rewrite Hc.
Qed.

End Controller.

(** The sample deployment reroutes to [b] and back: both transitions
    succeed, so the premises of the two theorems above are met. *)
Lemma setReroute_success_is_complete_witness :
  fst (setReroute true (Prefixes Sample.config) Sample.b4 Sample.b6 Sample.started)
  = None
  ∧ ∃ nets,
      @parseAll Sample.linux (Prefixes Sample.config) = Some nets
      ∧ newEvents Sample.started Sample.rerouted
        = ok <$> fullPlan (P := Sample.linux) true nets Sample.b4 Sample.b6
      ∧ metricIsRerouting Sample.rerouted = 1.
Proof.
  split; [reflexivity|].
  refine (proj1 (setReroute_success_is_complete true (Prefixes Sample.config)
                   Sample.b4 Sample.b6 Sample.started None Sample.rerouted _)
                eq_refl).
  reflexivity.
Defined.

Lemma setReroute_ordering_witness :
  (∃ pre', [ok (CallLinkDel localDummy)] = ok (CallLinkDel localDummy) :: pre')
  ∧ (@nil Event = []
     ∧ ∃ nets,
         @parseAll Sample.linux (Prefixes Sample.config) = Some nets
         ∧ [ok (CallRouteDel (routeOf Sample.net4));
            ok (CallRouteDel (routeOf Sample.net6))]
           = ok <$> ((fun n => CallRouteDel (routeOf n)) <$> nets)).
Proof.
  split.
  - refine (proj1 (setReroute_ordering (Prefixes Sample.config)
                     Sample.b4 Sample.b6 Sample.started None Sample.rerouted)
                  _ [ok (CallLinkDel localDummy)]
                  (routeFor (P := Sample.linux) Sample.net4 Sample.b4 Sample.b6)
                  None
                  [ok (CallRouteAdd
                         (routeFor (P := Sample.linux) Sample.net6 Sample.b4 Sample.b6))]
                  _); reflexivity.
  - refine (proj2 (setReroute_ordering (Prefixes Sample.config) "" ""
                     Sample.rerouted None
                     (snd (setReroute false (Prefixes Sample.config) "" ""
                             Sample.rerouted)))
                  _ [ok (CallRouteDel (routeOf Sample.net4));
                     ok (CallRouteDel (routeOf Sample.net6))]
                  None [] _); reflexivity.
Defined.

(** ** The candidate policy: [closestNode] *)

Section Policy.
Implicit Types (entries : list (string * Node)) (m : gmap string Node).

Lemma rangeOrder_elem {A} (m : gmap string A) (es : list (string * A)) k v :
  rangeOrder m es -> (k, v) ∈ es ↔ m !! k = Some v.
Proof. intros H. unfold rangeOrder in H. rewrite H. apply elem_of_map_to_list. Qed.

Lemma rangeOrder_empty {A} (m : gmap string A) (es : list (string * A)) :
  rangeOrder m es -> es = [] ↔ m = ∅.
Proof.
  intros H. unfold rangeOrder in H. rewrite <- map_to_list_empty_iff. split.
  - intros ->. by apply Permutation_nil_l in H.
  - intros Hm. rewrite Hm in H. by apply Permutation_nil_r in H.
Qed.

Lemma rangeOrder_of_list {A} (es : list (string * A)) :
  NoDup es.*1 -> rangeOrder (list_to_map es) es.
Proof. intros H. unfold rangeOrder. symmetry. by apply map_to_list_to_map. Qed.

(** With a variable per iteration: once some entry is held, the loop ends
    holding either that entry, no later one being strictly faster, or the
    first later entry that is strictly faster than everything before it and
    at least as fast as everything after it. *)
Lemma closestLoop_iter entries v nm cur :
  ∃ v' nm' cur',
    closestLoop PerIteration entries (Some (AddrIter v)) nm cur
    = (Some (AddrIter v'), nm', cur')
    ∧ ((v' = v ∧ nm' = nm ∧ ∀ x, x ∈ entries -> Latency v <= Latency x.2)
       ∨ (∃ pre post,
            entries = pre ++ (nm', v') :: post
            ∧ Latency v' < Latency v
            ∧ (∀ x, x ∈ pre -> Latency v' < Latency x.2)
            ∧ (∀ x, x ∈ post -> Latency v' <= Latency x.2))).
Proof.
  revert v nm cur. induction entries as [|[name node] rest IH]; intros v nm cur.
  - exists v, nm, cur. split; [done|]. left. repeat split.
    intros x Hx. by apply elem_of_nil in Hx.
  - simpl. destruct (Latency node <? Latency v) eqn:Hlt.
    + apply Z.ltb_lt in Hlt.
      destruct (IH node name node) as (v' & nm' & cur' & Heq & Hcase).
      exists v', nm', cur'. split; [done|]. right.
      destruct Hcase as [(-> & -> & Hle)|(pre & post & -> & Hlt' & Hpre & Hpost)].
      * exists [], rest. repeat split; [done| |done].
        intros x Hx. by apply elem_of_nil in Hx.
      * exists ((name, node) :: pre), post. repeat split; [lia| |done].
        intros x [->|Hx]%elem_of_cons; [done|by apply Hpre].
    + apply Z.ltb_ge in Hlt.
      destruct (IH v nm node) as (v' & nm' & cur' & Heq & Hcase).
      exists v', nm', cur'. split; [done|].
      destruct Hcase as [(-> & -> & Hle)|(pre & post & -> & Hlt' & Hpre & Hpost)].
      * left. repeat split.
        intros x [->|Hx]%elem_of_cons; [done|by apply Hle].
      * right. exists ((name, node) :: pre), post. repeat split; [done| |done].
        intros x [->|Hx]%elem_of_cons; [simpl; lia|by apply Hpre].
Qed.

(** With a variable per iteration, a non-empty scan returns the first of
    the fastest entries in visiting order. *)
Lemma closestNode_iter_first_min entries :
  entries ≠ [] ->
  ∃ pre name node post,
    entries = pre ++ (name, node) :: post
    ∧ closestNode PerIteration entries = (Some node, name)
    ∧ (∀ x, x ∈ pre -> Latency node < Latency x.2)
    ∧ (∀ x, x ∈ post -> Latency node <= Latency x.2).
Proof.
  destruct entries as [|[name node] rest]; [done|]. intros _.
  unfold closestNode. simpl.
  destruct (closestLoop_iter rest node name node)
    as (v' & nm' & cur' & -> & Hcase). simpl.
  destruct Hcase as [(-> & -> & Hle)|(pre & post & -> & Hlt & Hpre & Hpost)].
  - exists [], name, node, rest. repeat split; [|done].
    intros x Hx. by apply elem_of_nil in Hx.
  - exists ((name, node) :: pre), nm', v', post. repeat split; [|done].
    intros x [->|Hx]%elem_of_cons; [done|by apply Hpre].
Qed.

Lemma last_cons_default {A} (l : list A) a d :
  List.last (a :: l) d = List.last l a.
Proof.
  revert a d. induction l as [|b l IH]; intros a d; [done|].
  change (List.last (b :: l) d = List.last (b :: l) a).
  by rewrite (IH b d), (IH b a).
Qed.

(** With one variable for the loop, [closest] aliases it from the first
    iteration on: the comparison is of the entry with itself and never
    succeeds again, and what is returned is the first name with the record
    of the last entry visited. *)
Lemma closestLoop_shared entries nm cur :
  closestLoop PerLoop entries (Some AddrLoop) nm cur
  = (Some AddrLoop, nm, List.last entries.*2 cur).
Proof.
  revert cur. induction entries as [|[name node] rest IH]; intros cur; [done|].
  cbn [closestLoop deref]. rewrite Z.ltb_irrefl, IH.
  by rewrite fmap_cons, last_cons_default.
Qed.

(** X18. Compiled with one loop variable for the whole [range] (Go before
    1.22), [closestNode] compares no latencies: on a non-empty scan it
    returns the name of the first entry visited together with the record of
    the last entry visited. *)
Lemma closestNode_shared name node rest :
  closestNode PerLoop ((name, node) :: rest)
  = (Some (List.last rest.*2 node), name).
Proof. unfold closestNode. simpl. by rewrite closestLoop_shared. Qed.

(** C3, as the code has it. For every candidate map and every order in which
    the [range] visits it: on the empty map the result is nil; on a
    non-empty map (with a loop variable per iteration) the result is a
    candidate of minimum latency, namely the first such in visiting order,
    so that a tie goes to whichever tied candidate is visited first, not to
    the lower ID; and when one candidate is strictly faster than all others
    the result is that candidate under every visiting order. *)
Theorem closestNode_first_fastest m entries :
  rangeOrder m entries ->
  (m = ∅ -> ∀ sem, closestNode sem entries = (None, ""))
  ∧ (m ≠ ∅ ->
     ∃ pre name node post,
       entries = pre ++ (name, node) :: post
       ∧ closestNode PerIteration entries = (Some node, name)
       ∧ m !! name = Some node
       ∧ (∀ k v, m !! k = Some v -> Latency node <= Latency v)
       ∧ (∀ x, x ∈ pre -> Latency node < Latency x.2))
  ∧ (∀ name node,
       m !! name = Some node ->
       (∀ k v, m !! k = Some v -> k ≠ name -> Latency node < Latency v) ->
       closestNode PerIteration entries = (Some node, name)).
Proof.
  intros Hord.
  assert (m ≠ ∅ ->
          ∃ pre name node post,
            entries = pre ++ (name, node) :: post
            ∧ closestNode PerIteration entries = (Some node, name)
            ∧ m !! name = Some node
            ∧ (∀ k v, m !! k = Some v -> Latency node <= Latency v)
            ∧ (∀ x, x ∈ pre -> Latency node < Latency x.2)) as Hmin.
  { intros Hne.
    destruct (closestNode_iter_first_min entries)
      as (pre & name & node & post & Hsplit & Hres & Hpre & Hpost).
    { intros He. by apply (rangeOrder_empty m entries Hord) in He. }
    exists pre, name, node, post. repeat split; [done|done| | |done].
    - apply (rangeOrder_elem m entries name node Hord). rewrite Hsplit.
      apply elem_of_app. right. by left.
    - intros k v Hkv. apply (rangeOrder_elem m entries k v Hord) in Hkv.
      rewrite Hsplit in Hkv.
      apply elem_of_app in Hkv as [Hin|[[= -> ->]|Hin]%elem_of_cons].
      + specialize (Hpre _ Hin). simpl in Hpre. lia.
      + lia.
      + by specialize (Hpost _ Hin). }
  split; [|split; [done|]].
  - intros Hm sem. apply (rangeOrder_empty m entries Hord) in Hm. by rewrite Hm.
  - intros name node Hlook Huniq.
    destruct Hmin as (pre & name' & node' & post & _ & Hres & Hlook' & Hle & _).
    { intros ->. by rewrite lookup_empty in Hlook. }
    rewrite Hres. destruct (decide (name' = name)) as [->|Hne].
    + rewrite Hlook in Hlook'. by injection Hlook' as ->.
    + specialize (Huniq _ _ Hlook' Hne). specialize (Hle _ _ Hlook). lia.
Qed.

End Policy.

(** The tie of the sample: visited as [c], [b], [d], the scan returns the
    first of the two fastest. *)
Lemma closestNode_first_fastest_witness :
  rangeOrder Sample.tied Sample.visitCBD
  ∧ ∃ pre name node post,
      Sample.visitCBD = pre ++ (name, node) :: post
      ∧ closestNode PerIteration Sample.visitCBD = (Some node, name)
      ∧ Sample.tied !! name = Some node
      ∧ (∀ k v, Sample.tied !! k = Some v -> Latency node <= Latency v)
      ∧ (∀ x, x ∈ pre -> Latency node < Latency x.2).
Proof.
  assert (rangeOrder Sample.tied Sample.visitCBD) as Hord.
  { apply rangeOrder_of_list. compute_done. }
  split; [exact Hord|].
  refine (proj1 (proj2 (closestNode_first_fastest _ _ Hord)) _).
  intros H. apply (f_equal (fun m => m !! "b")) in H. vm_compute in H.
  discriminate H.
Defined.

(** C3 as stated fails. The candidates [b] (ID 2) and [c] (ID 3) are tied at
    5 ms. When the [range] visits [c] first, the node returned is not [b]:
    under either reading of the loop variable, [b] is at least as fast and
    has the lower ID. Visited in another order, the same candidates give
    another result. *)
Lemma closestNode_tie_not_lowest_ID :
  rangeOrder Sample.tied Sample.visitCBD
  ∧ rangeOrder Sample.tied Sample.visitBCD
  ∧ (∀ sem, ∃ node name other,
        closestNode sem Sample.visitCBD = (Some node, name)
        ∧ Sample.tied !! "b" = Some other
        ∧ Latency other <= Latency node
        ∧ (ID other < ID node)%N)
  ∧ closestNode PerIteration Sample.visitCBD
    ≠ closestNode PerIteration Sample.visitBCD.
Proof.
  split; [|split; [|split]].
  - apply rangeOrder_of_list. compute_done.
  - unfold rangeOrder. etransitivity;
      [|apply (rangeOrder_of_list Sample.visitCBD); compute_done].
    unfold Sample.visitBCD, Sample.visitCBD. apply perm_swap.
  - intros [|].
    + exists (withLatency Sample.C (5 * Millisecond)), "c",
             (withLatency Sample.B (5 * Millisecond)).
      repeat split; vm_compute; congruence.
    + exists (withLatency Sample.D (10 * Millisecond)), "c",
             (withLatency Sample.B (5 * Millisecond)).
      repeat split; vm_compute; congruence.
  - vm_compute. discriminate.
Qed.

(** ** The probe loop *)

Section ProbeLoop.
Context {P : Platform}.
Implicit Types (w : World P) (cfg : Config).

(** Both error exits of [icmpLatency] hand the loop a zero latency and a
    zero loss next to the error. *)
Lemma icmpLatency_error run err :
  (icmpLatency run).2 = Some err -> icmpLatency run = (0, 0%float, Some err).
Proof. destruct run; simpl; congruence. Qed.

(** X20. After the warning, the loop body goes on with those zeros as if they
    were a measurement: there is no [continue] on the error path. For a
    node other than the local one whose probe ends in an error, one warning
    is logged, the node is made a candidate with latency 0 if zero latency
    and zero loss pass the thresholds and is dropped otherwise, and the
    latency gauge is set to 0. *)
Lemma probeNode_error cfg localName ping w name node err :
  ID node ≠ LocalID cfg ->
  (icmpLatency (ping (internalIP (Prefix4 cfg) (LocalID cfg) 0)
                     (internalIP (Prefix4 cfg) (ID node) 0))).2 = Some err ->
  let w' := probeNode cfg localName ping w (name, node) in
  logs w' = logs w ++ [WarnPing name err]
  ∧ candidateNodes w'
    = (if isCandidate 0 0%float cfg
       then <[name := withLatency node 0]> (candidateNodes w)
       else delete name (candidateNodes w))
  ∧ metricNodeLatency w' !! (localName, name) = Some 0.
Proof.
  intros Hid Herr. unfold probeNode. rewrite decide_False by done.
  rewrite (icmpLatency_error _ _ Herr).
  destruct (isCandidate 0 0%float cfg); simpl;
    (split; [done|split; [done|apply lookup_insert_eq]]).
Qed.




End ProbeLoop.



(** C1 fails on the code. [b] was sampled at 40 ms and is a candidate, [c]
    was too slow and is none. At the next tick the prober cannot run: both
    errors are logged, and then [b]'s latency is overwritten with 0 and [c]
    becomes a candidate with latency 0; the gauges read 0 as well. *)
Lemma probe_error_zeroes_sample :
  let w' := tick Sample.config "a" Sample.pingDown Sample.visitABC Sample.sampled in
  rangeOrder (Nodes Sample.config) Sample.visitABC
  ∧ candidateNodes Sample.sampled !! "b" = Some (withLatency Sample.B (40 * Millisecond))
  ∧ candidateNodes Sample.sampled !! "c" = None
  ∧ logs w' = [WarnPing "b" "socket: operation not permitted";
               WarnPing "c" "socket: operation not permitted"]
  ∧ candidateNodes w' !! "b" = Some (withLatency Sample.B 0)
  ∧ candidateNodes w' !! "c" = Some (withLatency Sample.C 0)
  ∧ metricCandidateNodes w' = 2
  ∧ metricNodeLatency w' !! ("a", "b") = Some 0.
Proof.
  split.
  { unfold rangeOrder. symmetry.
    apply (map_to_list_to_map Sample.visitABC). compute_done. }
  repeat split; vm_compute; reflexivity.
Qed.

(** ** The [/reroute] handler *)

Section Handlers.
Context {P : Platform}.
Implicit Types (w : World P) (cfg : Config).

Lemma internalIP_zero prefix : internalIP prefix 0 0 = prefix +:+ "0".
Proof. done. Qed.

(** With no target named and no candidate, the handler panics before
    [setReroute] is called; the world is as it was. *)
Lemma rerouteHandler_no_candidate sem cfg visit w :
  rangeOrder (candidateNodes w) (visit (candidateNodes w)) ->
  candidateNodes w = ∅ ->
  rerouteHandler sem cfg visit "" w
  = (Panicked "invalid memory address or nil pointer dereference", w).
Proof.
  intros Hord Hempty. apply (rangeOrder_empty _ _ Hord) in Hempty.
  unfold rerouteHandler. rewrite decide_True by done. by rewrite Hempty.
Qed.

(** C10. A target name that is not a key of [config.Nodes] is not reported:
    the lookup yields the zero [Node], and the handler calls [setReroute]
    with the internal addresses of ID 0, the prefixes followed by [0]. It
    answers [Rerouting to <name>] when [setReroute] returns no error, and
    otherwise reports the error [setReroute] returned. *)
Theorem reroute_unknown_target sem cfg visit to w :
  to ≠ "" -> Nodes cfg !! to = None ->
  rerouteHandler sem cfg visit to w
  = let '(r, w') := setReroute true (Prefixes cfg)
                      (Prefix4 cfg +:+ "0") (Prefix6 cfg +:+ "0") w in
    (Responded match r with
               | None => "Rerouting to " +:+ to +:+ nl
               | Some err => "Error rerouting to " +:+ to +:+ ": " +:+ err +:+ nl
               end, w').
Proof.
  intros Hto Hlook. unfold rerouteHandler. rewrite decide_False by done.
  rewrite Hlook. simpl default. change (ID zeroNode) with 0%N.
  rewrite !internalIP_zero.
  by destruct (setReroute true (Prefixes cfg) _ _ w) as [[err|] w'].
Qed.

End Handlers.

(** In the sample, [nosuch] names no node: the handler answers with success
    and the routes point at the addresses of ID 0. *)
Lemma reroute_unknown_target_witness :
  ∃ w', rerouteHandler PerIteration Sample.config map_to_list "nosuch" Sample.started
        = (Responded ("Rerouting to nosuch" +:+ nl), w')
        ∧ Gw <$> Linux.routes (kern w')
          = [[172; 17; 104; 0]; [253; 0; 0; 0; 0; 0; 0; 0; 0; 0; 0; 0; 0; 0; 0; 0]].
Proof.
  rewrite (reroute_unknown_target PerIteration Sample.config map_to_list
             "nosuch" Sample.started);
    [|vm_compute; discriminate|reflexivity].
  eexists. split; reflexivity.
Defined.

(** C2 fails on the code. The node is rerouted to [b] and the candidate map
    is empty; a [/reroute] with no target does not answer that no candidate
    is available: [closestNode] returns nil and the handler panics on
    [node.ID], under either reading of the loop variable. The world,
    routes and gauge included, is left as it was. *)
Lemma reroute_without_candidates_panics :
  candidateNodes Sample.rerouted = ∅
  ∧ metricIsRerouting Sample.rerouted = 1
  ∧ ∀ sem,
      rerouteHandler sem Sample.config map_to_list "" Sample.rerouted
      = (Panicked "invalid memory address or nil pointer dereference",
         Sample.rerouted).
Proof.
  split; [reflexivity|]. split; [reflexivity|]. intros sem.
  apply rerouteHandler_no_candidate; [by unfold rangeOrder|reflexivity].
Qed.

(** ** Rerouting twice, on the reference kernel *)

Section OnLinux.
Variable parseCIDR : string -> error + IPNet.
Variable parseIP : string -> NetIP.
Variable netsh : Linux.State -> option error * Linux.State.

Local Notation "'linuxP'" := (Linux.platform parseCIDR parseIP netsh).

Implicit Types (k : Linux.State) (w : World linuxP).

Lemma NoDup_fmap_eq {A B} (f : A -> B) (l : list A) x y :
  NoDup (f <$> l) -> x ∈ l -> y ∈ l -> f x = f y -> x = y.
Proof.
  induction l as [|a l IH]; simpl.
  - intros _ Hx. by apply elem_of_nil in Hx.
  - intros [Hnotin Hnd]%NoDup_cons [->|Hx]%elem_of_cons [->|Hy]%elem_of_cons Hf.
    + done.
    + exfalso. apply Hnotin. rewrite Hf. by apply list_elem_of_fmap_2.
    + exfalso. apply Hnotin. rewrite <- Hf. by apply list_elem_of_fmap_2.
    + by apply IH.
Qed.

Lemma find_name_None name (ls : list Link) :
  (∀ x, x ∈ ls -> LinkName x ≠ name) ->
  List.find (fun x => bool_decide (LinkName x = name)) ls = None.
Proof.
  induction ls as [|a ls IH]; intros H; [done|]. simpl.
  rewrite bool_decide_eq_false_2 by (apply H; by left).
  apply IH. intros x Hx. apply H. by right.
Qed.

Lemma find_name_Some name (ls : list Link) x :
  List.find (fun x => bool_decide (LinkName x = name)) ls = Some x ->
  x ∈ ls ∧ LinkName x = name.
Proof.
  intros [Hin Hn]%find_some. split; [by apply list_elem_of_In|].
  by apply bool_decide_eq_true in Hn.
Qed.

Lemma index_found (ls : list Link) x :
  x ∈ ls -> existsb (fun y => bool_decide (LinkIndex y = LinkIndex x)) ls = true.
Proof.
  intros Hx. apply existsb_exists. exists x.
  split; [by apply list_elem_of_In|by apply bool_decide_eq_true].
Qed.

(** Deleting by the name [local] fails only when that name resolves to no
    index, and then leaves the kernel as it is. *)
Lemma linkDel_local_failure k err k' :
  Linux.linkDel localDummy k = (Some err, k') ->
  err = "invalid argument" ∧ k' = k.
Proof.
  unfold Linux.linkDel, Linux.resolve. simpl.
  destruct (List.find _ (Linux.links k)) as [x|] eqn:Hfind.
  - apply find_name_Some in Hfind as [Hx _].
    destruct (decide (LinkIndex x = 0)); [by intros [= <- <-]|].
    by rewrite index_found.
  - by intros [= <- <-].
Qed.

(** Once the link [local] has been deleted it cannot be deleted again. *)
Lemma linkDel_local_once k k' :
  Linux.wf k -> Linux.linkDel localDummy k = (None, k') ->
  Linux.wf k' ∧ Linux.routes k' = Linux.routes k
  ∧ ∀ rs, Linux.linkDel localDummy (Linux.mkState (Linux.links k') rs)
          = (Some "invalid argument", Linux.mkState (Linux.links k') rs).
Proof.
  intros (Hnames & Hidx & Hroutes).
  unfold Linux.linkDel, Linux.resolve. simpl.
  destruct (List.find _ (Linux.links k)) as [x|] eqn:Hfind; [|done].
  apply find_name_Some in Hfind as [Hx Hxn].
  destruct (decide (LinkIndex x = 0)); [done|].
  rewrite index_found by done. intros [= <-]. simpl.
  split; [|split; [done|]].
  - repeat split; [| |done].
    + eapply sublist_NoDup; [exact Hnames|]. apply fmap_sublist, sublist_filter.
    + eapply sublist_NoDup; [exact Hidx|]. apply fmap_sublist, sublist_filter.
  - intros rs. rewrite find_name_None; [done|].
    intros y [Hyi Hy]%list_elem_of_filter Hyn. apply Hyi.
    by rewrite (NoDup_fmap_eq LinkName _ x y Hnames Hx Hy) by congruence.
Qed.

(** Adding routes leaves the links alone and the route table without
    duplicates. *)
Lemma addRoutes_links prefixes nh4 nh6 w r w' :
  rangeErr (fun prefix => addRoute prefix nh4 nh6) prefixes w = (r, w') ->
  Linux.links (kern w') = Linux.links (kern w)
  ∧ (NoDup (Linux.routeKey <$> Linux.routes (kern w)) ->
     NoDup (Linux.routeKey <$> Linux.routes (kern w'))).
Proof.
  revert w. induction prefixes as [|p ps IH]; intros w; simpl.
  - by intros [= <- <-].
  - unfold addRoute at 1. destruct (ParseCIDR p) as [err|n].
    { by intros [= <- <-]. }
    unfold call. simpl. unfold Linux.routeAdd.
    destruct (bool_decide _) eqn:Hdup; simpl.
    { by intros [= <- <-]. }
    intros [Hl Hr]%IH. simpl in *. split; [done|]. intros Hnd. apply Hr.
    rewrite fmap_app. apply NoDup_app. split; [done|]. split.
    + intros key Hkey [->|[]%elem_of_nil]%elem_of_cons.
      by apply bool_decide_eq_false in Hdup.
    + apply NoDup_singleton.
Qed.

(** What [setReroute(true, ...)] does on this kernel: either the link
    [local] was absent and nothing changed, or it was deleted and only
    routes were added after it. *)
Lemma setReroute_enter_linux prefixes nh4 nh6 w r w' :
  setReroute true prefixes nh4 nh6 w = (r, w') ->
  sameMemory (setIsRerouting 1 w) w'
  ∧ ((Linux.linkDel localDummy (kern w) = (Some "invalid argument", kern w)
      ∧ r = Some "invalid argument" ∧ kern w' = kern w
      ∧ trace w' = trace w ++ [(CallLinkDel localDummy, Some "invalid argument")])
     ∨ (∃ k', Linux.linkDel localDummy (kern w) = (None, k')
              ∧ Linux.links (kern w') = Linux.links k'
              ∧ (NoDup (Linux.routeKey <$> Linux.routes k') ->
                 NoDup (Linux.routeKey <$> Linux.routes (kern w'))))).
Proof.
  unfold setReroute, setPFNet.
  destruct (call (CallLinkDel localDummy) (setIsRerouting 1 w))
    as [[err|] w1] eqn:Hc; apply call_inv in Hc as (Hk & Ht & Hm);
    simpl in Hk.
  - intros [= <- <-]. split; [done|]. left.
    destruct (linkDel_local_failure _ _ _ Hk) as (-> & Hsame).
    rewrite Hsame in *. done.
  - intros Hrun. split.
    + rewrite (rangeErr_ext _ (viaCall (addPlan (P := linuxP) nh4 nh6))) in Hrun
        by apply addRoute_plan.
      apply rangeErr_Ran in Hrun as (_ & _ & _ & Hm').
      by eapply sameMemory_trans.
    + right. exists (kern w1). split; [done|].
      by apply addRoutes_links in Hrun.
Qed.

(** C5, as the code has it, on the reference kernel with unique link names
    and route keys. Whatever the first [setReroute(P)] did, a second one in
    a row fails: its deletion of the link [local] is refused, that is the
    only call it makes, and the error is returned. It therefore adds no
    route and leaves the kernel, the gauges and the candidates exactly as
    the first call left them, the route table still free of duplicates. *)
Theorem setReroute_twice prefixes nh4 nh6 w r1 w1 r2 w2 :
  Linux.wf (kern w) ->
  setReroute true prefixes nh4 nh6 w = (r1, w1) ->
  setReroute true prefixes nh4 nh6 w1 = (r2, w2) ->
  r2 = Some "invalid argument"
  ∧ newEvents w1 w2 = [(CallLinkDel localDummy, Some "invalid argument")]
  ∧ kern w2 = kern w1
  ∧ sameMemory w1 w2
  ∧ Linux.wf (kern w2).
Proof.
  intros Hwf H1 H2.
  apply setReroute_enter_linux in H1 as [Hm1 Hfirst].
  apply setReroute_enter_linux in H2 as [Hm2 Hsecond].
  assert (Linux.linkDel localDummy (kern w1) = (Some "invalid argument", kern w1)
          ∧ Linux.wf (kern w1)) as [Hgone Hwf1].
  { destruct Hfirst as [(Hfail & _ & Hk & _)|(k' & Hdel & Hl & Hr)].
    - by rewrite Hk.
    - destruct (linkDel_local_once _ _ Hwf Hdel) as ((Hn & Hi & Hrt) & _ & Hagain).
      specialize (Hagain (Linux.routes (kern w1))). rewrite <- Hl in Hagain.
      destruct (kern w1) as [ls rs] eqn:Hk1. simpl in *.
      split; [done|]. repeat split; [by rewrite Hl..|by apply Hr]. }
  destruct Hsecond as [(_ & -> & Hk & Ht)|(k' & Hdel & _)]; [|congruence].
  split; [done|]. split; [by apply newEvents_app|]. split; [done|].
  split; [|by rewrite Hk].
  destruct Hm1 as (_ & Hg1 & _), Hm2 as (Hc & Hg & Hcg & Hlg & Hlogs).
  simpl in *. repeat split; congruence.
Qed.

End OnLinux.

(** In the sample the first reroute to [b] succeeds; asked again, the agent
    answers with the error. *)
Lemma setReroute_twice_witness :
  fst (setReroute true (Prefixes Sample.config) Sample.b4 Sample.b6 Sample.started)
  = None
  ∧ (fst (setReroute true (Prefixes Sample.config) Sample.b4 Sample.b6
            Sample.rerouted) = Some "invalid argument"
     ∧ newEvents Sample.rerouted
         (snd (setReroute true (Prefixes Sample.config) Sample.b4 Sample.b6
                 Sample.rerouted))
       = [(CallLinkDel localDummy, Some "invalid argument")]
     ∧ kern (snd (setReroute true (Prefixes Sample.config) Sample.b4 Sample.b6
                    Sample.rerouted))
       = kern Sample.rerouted
     ∧ sameMemory Sample.rerouted
         (snd (setReroute true (Prefixes Sample.config) Sample.b4 Sample.b6
                 Sample.rerouted))
     ∧ Linux.wf (kern (snd (setReroute true (Prefixes Sample.config)
                              Sample.b4 Sample.b6 Sample.rerouted)))).
Proof.
  split; [reflexivity|].
  apply (setReroute_twice Sample.parseCIDR Sample.parseIP Sample.netsh
           (Prefixes Sample.config) Sample.b4 Sample.b6 Sample.started
           None Sample.rerouted).
  - repeat split; simpl; compute_done.
  - reflexivity.
  - reflexivity.
Defined.

(** C5 as stated fails: after a successful reroute to [b], the same request
    again is answered with an error, the one of deleting the link [local]
    a second time. Were that deletion to pass, the second call would still
    fail, on the first route, which is there already. *)
Lemma second_reroute_reports_error :
  rerouteHandler PerIteration Sample.config map_to_list "b" Sample.started
  = (Responded ("Rerouting to b" +:+ nl), Sample.rerouted)
  ∧ fst (rerouteHandler PerIteration Sample.config map_to_list "b" Sample.rerouted)
    = Responded ("Error rerouting to b: invalid argument" +:+ nl)
  ∧ fst (setReroute true (Prefixes Sample.config) Sample.b4 Sample.b6
           Sample.rerouted) = Some "invalid argument"
  ∧ (let once := setReroute true (Prefixes Sample.config) Sample.b4 Sample.b6
                   (Sample.world0 Sample.lenient Sample.boot) in
     fst once = None
     ∧ fst (setReroute true (Prefixes Sample.config) Sample.b4 Sample.b6
              (snd once)) = Some "file exists").
Proof. repeat split; reflexivity. Qed.

(** ** Mesh teardown *)

Section Teardown.
Context {P : Platform}.
Implicit Types (w : World P) (ls : list Link).

Lemma callsOf_fabricPlan ls :
  callsOf fabricPlan ls = CallLinkDel <$> fabricLinks ls.
Proof.
  induction ls as [|l ls IH]; [done|].
  rewrite callsOf_cons. unfold fabricLinks in *. rewrite filter_cons.
  unfold fabricPlan at 1.
  destruct (String.prefix "fd-" (LinkName l)) eqn:Hp.
  - rewrite decide_True by done. by rewrite IH.
  - rewrite decide_False by congruence. done.
Qed.

Lemma fabricPlan_call l c :
  fabricPlan l = inr (Some c) ->
  c = CallLinkDel l ∧ String.prefix "fd-" (LinkName l) = true.
Proof.
  unfold fabricPlan. destruct (String.prefix "fd-" (LinkName l)); [|done].
  by intros [= <-].
Qed.

(** A loop whose plan makes no call leaves the world as it is. *)
Lemma rangeErr_no_call {A} (plan : A -> error + option KCall) xs w :
  Forall (fun x => plan x = inr None) xs ->
  rangeErr (viaCall plan) xs w = (None, w).
Proof.
  induction 1 as [|x xs Hx _ IH]; [done|].
  simpl. unfold viaCall at 1. by rewrite Hx.
Qed.

Lemma fabricLinks_nil ls :
  fabricLinks ls = [] -> Forall (fun l => fabricPlan l = inr None) ls.
Proof.
  intros Hnil. apply Forall_forall. intros l Hl. unfold fabricPlan.
  destruct (String.prefix "fd-" (LinkName l)) eqn:Hp; [|done].
  exfalso. by eapply (filter_nil_not_elem_of _ _ l Hnil).
Qed.

(** C8, as the code has it. When the links are listed: with no link of the
    fabric there is nothing to delete, teardown returns no error and the
    kernel is untouched; when teardown returns no error, every link of the
    fabric was deleted, in order; when a deletion fails, teardown stops
    there and returns its error, so that the fabric links after the failing
    one are never asked to be deleted. The caller logs the returned error,
    once. *)
Theorem teardownGRE_stops_at_failure w ls r w' :
  LinkList (kern w) = inr ls ->
  teardownGRE w = (r, w') ->
  (fabricLinks ls = [] -> r = None ∧ kern w' = kern w)
  ∧ match r with
    | None =>
        newEvents w w'
        = ok CallLinkList :: (ok <$> (CallLinkDel <$> fabricLinks ls))
    | Some err =>
        ∃ done l rest,
          fabricLinks ls = done ++ l :: rest
          ∧ newEvents w w'
            = ok CallLinkList :: (ok <$> (CallLinkDel <$> done))
              ++ [(CallLinkDel l, Some err)]
    end
  ∧ logs (startupTeardown w)
    = logs w ++ match r with
                | Some err => [ErrorTeardown err]
                | None => []
                end.
Proof.
  intros Hlist Hrun.
  assert (call CallLinkList w
          = (None, mkWorld (kern w) (trace w ++ [ok CallLinkList])
                     (candidateNodes w) (metricIsRerouting w)
                     (metricCandidateNodes w) (metricNodeLatency w) (logs w)))
    as Hcall.
  { unfold call. simpl. by rewrite Hlist. }
  pose proof Hrun as Hrun0.
  unfold teardownGRE in Hrun. rewrite Hlist, Hcall in Hrun. simpl in Hrun.
  rewrite (rangeErr_ext _ (viaCall fabricPlan)) in Hrun
    by apply delIfFabric_plan.
  split; [|split].
  - intros Hnil. rewrite rangeErr_no_call in Hrun by by apply fabricLinks_nil.
    by injection Hrun as <- <-.
  - apply rangeErr_Ran in Hrun as (evs & Ht & Hran & _). simpl in Ht.
    rewrite <- app_assoc in Ht. apply newEvents_app in Ht. rewrite Ht.
    destruct r as [err|].
    + apply Ran_failure in Hran as (dn & l & rest & -> & _ & Hcase).
      destruct Hcase as [[Hrej _]|(c & Hc & ->)]; [done|].
      apply fabricPlan_call in Hc as [-> Hp].
      exists (fabricLinks dn), l, (fabricLinks rest). split.
      * unfold fabricLinks. rewrite filter_app, filter_cons_True by done. done.
      * by rewrite callsOf_fabricPlan.
    + apply Ran_success in Hran as [-> _]. by rewrite callsOf_fabricPlan.
  - unfold startupTeardown. rewrite Hrun0.
    apply rangeErr_Ran in Hrun as (_ & _ & _ & Hm).
    destruct Hm as (_ & _ & _ & _ & Hlogs). simpl in Hlogs.
    destruct r; simpl; rewrite Hlogs; by rewrite ?app_nil_r.
Qed.

End Teardown.

(** Teardown of the sample's two tunnels succeeds and deletes both. *)
Lemma teardownGRE_stops_at_failure_witness :
  (fabricLinks (Linux.links Sample.boot) = [] ->
   @None error = None
   ∧ kern (snd (teardownGRE Sample.started)) = kern Sample.started)
  ∧ newEvents Sample.started (snd (teardownGRE Sample.started))
    = ok CallLinkList
      :: (ok <$> (CallLinkDel <$> fabricLinks (Linux.links Sample.boot)))
  ∧ logs (startupTeardown Sample.started) = logs Sample.started ++ [].
Proof.
  apply (teardownGRE_stops_at_failure Sample.started (Linux.links Sample.boot)
           None (snd (teardownGRE Sample.started))); reflexivity.
Defined.

(** C8 as stated fails. The kernel refuses to delete the tunnel to [b]:
    teardown returns that error at once. The tunnel to [c], which comes
    after it and matches the naming convention as well, is never asked to
    be deleted and is still there. *)
Lemma teardown_aborts_on_failure :
  let w := Sample.world0 Sample.flaky Sample.boot in
  let w' := snd (teardownGRE w) in
  fabricLinks (Linux.links Sample.boot) = [mkLink "fd-b" 3; mkLink "fd-c" 4]
  ∧ fst (teardownGRE w) = Some "device or resource busy"
  ∧ newEvents w w'
    = [ok CallLinkList;
       (CallLinkDel (mkLink "fd-b" 3), Some "device or resource busy")]
  ∧ mkLink "fd-c" 4 ∈ Linux.links (kern w')
  ∧ logs (startupTeardown w) = [ErrorTeardown "device or resource busy"].
Proof.
  repeat split; try reflexivity. vm_compute. set_solver.
Qed.

(** * Further properties of the code *)

(** ** Internal addresses *)

Section Addresses.

Lemma string_length_app (s1 s2 : string) :
  String.length (s1 +:+ s2) = (String.length s1 + String.length s2)%nat.
Proof. induction s1 as [|a s1 IH]; simpl; [done|]. by rewrite IH. Qed.

Lemma string_app_inv_tail (s1 s2 t : string) :
  s1 +:+ t = s2 +:+ t -> s1 = s2.
Proof.
  revert s2. induction s1 as [|a s1 IH]; intros [|b s2] H.
  - done.
  - apply (f_equal String.length) in H.
    rewrite !string_length_app in H. simpl in H. lia.
  - apply (f_equal String.length) in H.
    rewrite !string_length_app in H. simpl in H. lia.
  - change (String a (s1 +:+ t) = String b (s2 +:+ t)) in H.
    injection H as -> H. f_equal. by apply IH.
Qed.

(** X1. Under one prefix and one mask, [internalIP] gives different nodes
    different addresses. *)
Theorem internalIP_inj prefix mask n n' :
  internalIP prefix n mask = internalIP prefix n' mask -> n = n'.
Proof.
  unfold internalIP. destruct (decide (mask ≠ 0%N)); intros H.
  - apply string_app_inv_tail in H.
    apply (inj (String.app prefix)) in H. by apply (inj pretty) in H.
  - apply (inj (String.app prefix)) in H. by apply (inj pretty) in H.
Qed.

End Addresses.

Lemma internalIP_inj_witness : (2 = 2)%N.
Proof.
  apply (internalIP_inj "172.17.104." 24 2 2). reflexivity.
Defined.

(** ** Startup: finding the local node *)

Section LocalNode.
Implicit Types (cfg : Config) (entries : list (string * Node)).

(** The loop stops at the first entry with the local ID; it ends with two
    empty strings exactly when no entry has it. *)
Lemma findLocal_first localID entries :
  (∃ pre name node post,
      entries = pre ++ (name, node) :: post
      ∧ Forall (fun e => ID e.2 ≠ localID) pre
      ∧ ID node = localID
      ∧ findLocal localID entries = (name, IP node))
  ∨ (Forall (fun e => ID e.2 ≠ localID) entries
     ∧ findLocal localID entries = ("", "")).
Proof.
  induction entries as [|[name node] rest IH]; simpl.
  - right. by split.
  - destruct (decide (ID node = localID)) as [Hid|Hid].
    + left. exists [], name, node, rest. by repeat split.
    + destruct IH as [(pre & nm & nd & post & -> & Hpre & Hnd & Hres)|[Hall Hres]].
      * left. exists ((name, node) :: pre), nm, nd, post.
        repeat split; [by constructor|done|done].
      * right. split; [by constructor|done].
Qed.

Lemma rangeOrder_lookup_of_elem {A} (m : gmap string A) (es : list (string * A)) e :
  rangeOrder m es -> e ∈ es -> m !! e.1 = Some e.2.
Proof. destruct e as [k v]. intros H. by apply rangeOrder_elem. Qed.

(** X2. The start gets past the local-node check only with the name and
    address of a configured node that has the local ID, both non-empty; when
    no configured node has the local ID, the check is fatal. *)
Theorem localNode_sound cfg entries :
  rangeOrder (Nodes cfg) entries ->
  (∀ name ip,
      localNode cfg entries = Some (name, ip) ->
      name ≠ "" ∧ ip ≠ ""
      ∧ ∃ node, Nodes cfg !! name = Some node
                ∧ ID node = LocalID cfg ∧ IP node = ip)
  ∧ ((∀ name node, Nodes cfg !! name = Some node -> ID node ≠ LocalID cfg) ->
     localNode cfg entries = None).
Proof.
  intros Hord. unfold localNode.
  destruct (findLocal_first (LocalID cfg) entries)
    as [(pre & nm & nd & post & Hsplit & Hpre & Hnd & ->)|[Hall ->]].
  - assert (Nodes cfg !! nm = Some nd) as Hlook.
    { apply (rangeOrder_elem _ _ _ _ Hord). rewrite Hsplit.
      apply elem_of_app. right. by left. }
    split.
    + intros name ip. destruct (decide _) as [|Hne]; [done|].
      intros [= <- <-]. split; [tauto|]. split; [tauto|]. by exists nd.
    + intros Hnone. by destruct (Hnone _ _ Hlook).
  - split; [|intros _]; by rewrite decide_True by by left.
Qed.

(** X3. When at most one configured node has the local ID, the outcome of
    the local-node check does not depend on the order in which the map is
    visited. *)
Theorem localNode_order_independent cfg entries entries' :
  rangeOrder (Nodes cfg) entries ->
  rangeOrder (Nodes cfg) entries' ->
  (∀ n1 n2 nd1 nd2,
      Nodes cfg !! n1 = Some nd1 -> Nodes cfg !! n2 = Some nd2 ->
      ID nd1 = LocalID cfg -> ID nd2 = LocalID cfg -> n1 = n2) ->
  localNode cfg entries = localNode cfg entries'.
Proof.
  intros Hord Hord' Huniq. unfold localNode.
  assert (∀ es pre nm nd post,
            rangeOrder (Nodes cfg) es -> es = pre ++ (nm, nd) :: post ->
            Nodes cfg !! nm = Some nd) as Hin.
  { intros es pre nm nd post Ho ->. apply (rangeOrder_elem _ _ _ _ Ho).
    apply elem_of_app. right. by left. }
  assert (∀ es' nm nd,
            rangeOrder (Nodes cfg) es' -> Nodes cfg !! nm = Some nd ->
            ID nd = LocalID cfg ->
            Forall (fun e => ID e.2 ≠ LocalID cfg) es' -> False) as Hno.
  { intros es' nm nd Ho Hlook Hid Hall.
    apply (rangeOrder_elem _ _ _ _ Ho) in Hlook.
    rewrite Forall_forall in Hall. by apply (Hall _ Hlook). }
  destruct (findLocal_first (LocalID cfg) entries)
    as [(pre & nm & nd & post & Hsplit & _ & Hnd & ->)|[Hall ->]];
  destruct (findLocal_first (LocalID cfg) entries')
    as [(pre' & nm' & nd' & post' & Hsplit' & _ & Hnd' & ->)|[Hall' ->]].
  - pose proof (Hin _ _ _ _ _ Hord Hsplit) as Hl.
    pose proof (Hin _ _ _ _ _ Hord' Hsplit') as Hl'.
    assert (nm = nm') as <- by eauto. rewrite Hl in Hl'. by injection Hl' as <-.
  - exfalso. eapply (Hno entries'); eauto.
  - exfalso. eapply (Hno entries); eauto.
  - done.
Qed.

End LocalNode.

Lemma sample_nodes_order : rangeOrder (Nodes Sample.config) Sample.visitABC.
Proof.
  unfold rangeOrder. symmetry.
  apply (map_to_list_to_map Sample.visitABC). compute_done.
Qed.

Lemma localNode_sound_witness :
  localNode Sample.config Sample.visitABC = Some ("a", "198.51.100.1")
  ∧ "a" ≠ "" ∧ "198.51.100.1" ≠ ""
  ∧ ∃ node, Nodes Sample.config !! "a" = Some node
            ∧ ID node = LocalID Sample.config ∧ IP node = "198.51.100.1".
Proof.
  split; [reflexivity|].
  apply (proj1 (localNode_sound Sample.config Sample.visitABC sample_nodes_order)).
  reflexivity.
Defined.

Lemma localNode_order_independent_witness :
  localNode Sample.config Sample.visitABC
  = localNode Sample.config (reverse Sample.visitABC).
Proof.
  apply localNode_order_independent.
  - exact sample_nodes_order.
  - unfold rangeOrder. rewrite reverse_Permutation. exact sample_nodes_order.
  - intros n1 n2 nd1 nd2 H1 H2 Hid1 Hid2.
    apply (rangeOrder_elem _ _ _ _ sample_nodes_order) in H1, H2.
    unfold Sample.visitABC in H1, H2.
    repeat (apply elem_of_cons in H1 as [H1|H1]);
      [| | |by apply elem_of_nil in H1];
      repeat (apply elem_of_cons in H2 as [H2|H2]);
      try (by apply elem_of_nil in H2);
      injection H1 as -> ->; injection H2 as -> ->;
      (done || (vm_compute in Hid1; discriminate)
            || (vm_compute in Hid2; discriminate)).
Defined.

(** ** Startup: the tunnel mesh *)

Section Mesh.
Context {MP : MeshPlatform}.
Implicit Types (mw : MeshWorld MP) (cfg : Config).

(** What one [addGRE] leaves in the trace and the log, however it ends: one
    request to create the tunnel, first; then only calls on the link of
    that name, the address calls with an address parsed from [ip4] or
    [ip6]; and nothing in the log. *)
Lemma addGRE_trace name local remote ip4 ip6 mw res mw' :
  addGRE name local remote ip4 ip6 mw = (res, mw') ->
  ∃ r evs,
    mtrace mw' = mtrace mw ++ (CallLinkAdd (gretunFor name local remote), r) :: evs
    ∧ linkAdds evs = []
    ∧ mlogs mw' = mlogs mw
    ∧ (∀ l a e, (CallAddrAdd l a, e) ∈ evs ->
         LinkName l = name ∧ (parseCIDR ip4 = inr a ∨ parseCIDR ip6 = inr a)).
Proof.
  assert (∀ (evs : list MeshEvent) (a4 a6 : IPNet) index,
            evs `sublist_of` [(CallAddrAdd (mkLink name index) a4, None);
                              (CallAddrAdd (mkLink name index) a6, None);
                              (CallLinkSetUp (mkLink name index), None)] ->
            ∀ l a e, (CallAddrAdd l a, e) ∈ evs ->
              LinkName l = name ∧ (a4 = a ∨ a6 = a)) as Hsub.
  { intros evs a4 a6 index Hs l a e Hin.
    apply (elem_of_sublist _ _ _ Hin) in Hs. clear Hin. rename Hs into Hin.
    apply elem_of_cons in Hin as [Hin|Hin];
      [injection Hin as -> -> _; split; [done|auto]|].
    apply elem_of_cons in Hin as [Hin|Hin];
      [injection Hin as -> -> _; split; [done|auto]|].
    apply elem_of_cons in Hin as [Hin|Hin]; [discriminate Hin|].
    by apply elem_of_nil in Hin. }
  unfold addGRE, meshCall.
  destruct (LinkAdd _ (mkern mw)) as [[err|index] k]; simpl.
  { intros [= <- <-]. exists (Some err), []. split_and!; try done.
    intros l a e Hin. by apply elem_of_nil in Hin. }
  destruct (parseCIDR ip4) as [err|a4] eqn:H4.
  { intros [= <- <-]. exists None, []. split_and!; try done.
    intros l a e Hin. by apply elem_of_nil in Hin. }
  destruct (parseCIDR ip6) as [err|a6] eqn:H6.
  { intros [= <- <-]. exists None, []. split_and!; try done.
    intros l a e Hin. by apply elem_of_nil in Hin. }
  assert (∀ (evs : list MeshEvent),
            evs `sublist_of` [(CallAddrAdd (mkLink name index) a4, None);
                              (CallAddrAdd (mkLink name index) a6, None);
                              (CallLinkSetUp (mkLink name index), None)] ->
            ∀ l a e, (CallAddrAdd l a, e) ∈ evs ->
              LinkName l = name
              ∧ (inr a4 = @inr error IPNet a ∨ inr a6 = @inr error IPNet a))
    as Hsub'.
  { intros evs Hs l a e Hin.
    destruct (Hsub evs a4 a6 index Hs l a e Hin) as [? [->| ->]]; auto. }
  destruct (AddrAdd _ a4 k) as [[err|] k1]; simpl.
  { intros [= <- <-]. eexists None, [(_, Some err)]. simpl.
    rewrite <- app_assoc. split_and!; try done.
    intros l a e [[= -> -> _]|Hin%elem_of_nil]%elem_of_cons; [|done].
    split; [done|by left]. }
  destruct (AddrAdd _ a6 k1) as [[err|] k2]; simpl.
  { intros [= <- <-]. eexists None, [_; (_, Some err)]. simpl.
    rewrite <- !app_assoc. split_and!; try done.
    intros l a e [[= -> -> _]|[[= -> -> _]|Hin%elem_of_nil]%elem_of_cons]%elem_of_cons;
      [| |done]; (split; [done|(by left) || (by right)]). }
  destruct (LinkSetUp _ k2) as [[err|] k3]; simpl.
  { intros [= <- <-]. eexists None, [_; _; (_, Some err)]. simpl.
    rewrite <- !app_assoc. split_and!; try done.
    intros l a e
      [[= -> -> _]|[[= -> -> _]|[[=]|Hin%elem_of_nil]%elem_of_cons]%elem_of_cons]%elem_of_cons;
      try done; (split; [done|(by left) || (by right)]). }
  intros [= <- <-]. eexists None, [_; _; _]. simpl.
  rewrite <- !app_assoc. split_and!; try done.
  apply Hsub'. done.
Qed.

(** X4. [addGRE] returns no error only when the tunnel was created, both
    addresses parsed, and the four calls (create, IPv4 address, IPv6
    address, bring up) were made in this order and all succeeded; the index
    it returns is then the one the kernel gave the tunnel. With an error it
    returns -1. *)
Theorem addGRE_success_is_complete name local remote ip4 ip6 mw index r mw' :
  addGRE name local remote ip4 ip6 mw = ((index, r), mw') ->
  (r = None ->
   ∃ k a4 a6,
     LinkAdd (gretunFor name local remote) (mkern mw) = (inr index, k)
     ∧ parseCIDR ip4 = inr a4 ∧ parseCIDR ip6 = inr a6
     ∧ mtrace mw'
       = mtrace mw ++ [(CallLinkAdd (gretunFor name local remote), None);
                       (CallAddrAdd (mkLink name index) a4, None);
                       (CallAddrAdd (mkLink name index) a6, None);
                       (CallLinkSetUp (mkLink name index), None)])
  ∧ (r ≠ None -> index = -1).
Proof.
  unfold addGRE, meshCall.
  destruct (LinkAdd _ (mkern mw)) as [[err|idx] k]; simpl.
  { intros [= <- <- <-]. by split. }
  destruct (parseCIDR ip4) as [err|a4]; [intros [= <- <- <-]; by split|].
  destruct (parseCIDR ip6) as [err|a6]; [intros [= <- <- <-]; by split|].
  destruct (AddrAdd _ a4 k) as [[err|] k1]; simpl;
    [intros [= <- <- <-]; by split|].
  destruct (AddrAdd _ a6 k1) as [[err|] k2]; simpl;
    [intros [= <- <- <-]; by split|].
  destruct (LinkSetUp _ k2) as [[err|] k3]; simpl;
    [intros [= <- <- <-]; by split|].
  intros [= <- <- <-]. split; [|done]. intros _.
  exists k, a4, a6. repeat split. by rewrite <- !app_assoc.
Qed.

(** X5. The addresses are looked at only after the tunnel exists. When
    [ip4] does not parse, or [ip4] does and [ip6] does not, [addGRE] has
    already created the tunnel: it returns -1 with an error, the kernel is
    as the creation left it, and the creation is the only call made;
    nothing removes the tunnel again. *)
Theorem addGRE_parses_after_create name local remote ip4 ip6 mw index k :
  LinkAdd (gretunFor name local remote) (mkern mw) = (inr index, k) ->
  (∃ err, parseCIDR ip4 = inl err
          ∨ (∃ a4, parseCIDR ip4 = inr a4) ∧ parseCIDR ip6 = inl err) ->
  ∃ msg,
    addGRE name local remote ip4 ip6 mw
    = ((-1, Some msg),
       mkMeshWorld k
         (mtrace mw ++ [(CallLinkAdd (gretunFor name local remote), None)])
         (mlogs mw)).
Proof.
  intros Hadd [err [H4|[[a4 H4] H6]]]; unfold addGRE; rewrite Hadd, H4.
  - eauto.
  - rewrite H6. eauto.
Qed.

(** The name of a tunnel passes the test of [teardownGRE]. *)
Lemma fd_prefix name : String.prefix "fd-" ("fd-" +:+ name) = true.
Proof. by destruct name. Qed.

(** One entry of the loop: nothing for the local node, one [addGRE] with
    its announcement for any other. *)
Lemma meshNode_trace cfg localIP mw name node :
  ∃ evs lg,
    mtrace (meshNode cfg localIP mw (name, node)) = mtrace mw ++ evs
    ∧ mlogs (meshNode cfg localIP mw (name, node)) = mlogs mw ++ lg
    ∧ linkAdds evs
      = (fun e => gretunFor ("fd-" +:+ e.1) localIP (IP e.2))
          <$> peersOf cfg [(name, node)]
    ∧ omap (fun e => match e with
                     | InfoAddingTunnel n => Some n
                     | _ => None
                     end) lg
      = fst <$> peersOf cfg [(name, node)]
    ∧ (∀ l a e, (CallAddrAdd l a, e) ∈ evs ->
         String.prefix "fd-" (LinkName l) = true
         ∧ (parseCIDR (internalIP (Prefix4 cfg) (LocalID cfg) 24) = inr a
            ∨ parseCIDR (internalIP (Prefix6 cfg) (LocalID cfg) 112) = inr a)).
Proof.
  unfold meshNode, peersOf. rewrite filter_cons, filter_nil. simpl.
  destruct (decide (ID node = LocalID cfg)) as [Hid|Hid].
  - rewrite decide_False by tauto. exists [], []. rewrite !app_nil_r.
    split_and!; try done. intros l a e Hin. by apply elem_of_nil in Hin.
  - rewrite decide_True by done.
    destruct (addGRE _ _ _ _ _ (meshLog (InfoAddingTunnel name) mw))
      as [[index r] mw1] eqn:Hgre.
    apply addGRE_trace in Hgre as (r0 & evs & Ht & Hadds & Hlg & Haddr).
    simpl in Ht, Hlg.
    assert (∀ l a e, (CallAddrAdd l a, e) ∈ (CallLinkAdd
              (gretunFor ("fd-" +:+ name) localIP (IP node)), r0) :: evs ->
            String.prefix "fd-" (LinkName l) = true
            ∧ (parseCIDR (internalIP (Prefix4 cfg) (LocalID cfg) 24) = inr a
               ∨ parseCIDR (internalIP (Prefix6 cfg) (LocalID cfg) 112) = inr a))
      as Haddr'.
    { intros l a e [[=]|Hin]%elem_of_cons.
      destruct (Haddr _ _ _ Hin) as [-> Hparse]. split; [apply fd_prefix|done]. }
    set (g := gretunFor ("fd-" +:+ name) localIP (IP node)) in *.
    assert (linkAdds ((CallLinkAdd g, r0) :: evs) = [g]) as Hg.
    { change (linkAdds ((CallLinkAdd g, r0) :: evs)) with (g :: linkAdds evs).
      by rewrite Hadds. }
    destruct r as [err|].
    + exists ((CallLinkAdd g, r0) :: evs), [InfoAddingTunnel name; WarnTunnel err].
      split_and!; [done| |done|done|done].
      simpl. by rewrite Hlg, <- app_assoc.
    + exists ((CallLinkAdd g, r0) :: evs), [InfoAddingTunnel name].
      by split_and!.
Qed.

Lemma linkAdds_app (evs1 evs2 : list MeshEvent) :
  linkAdds (evs1 ++ evs2) = linkAdds evs1 ++ linkAdds evs2.
Proof. unfold linkAdds. apply omap_app. Qed.

Lemma peersOf_cons cfg e (es : list (string * Node)) :
  peersOf cfg (e :: es) = peersOf cfg [e] ++ peersOf cfg es.
Proof. unfold peersOf. by rewrite <- filter_app. Qed.

(** The whole loop, by the same token. *)
Lemma buildMesh_trace cfg localIP entries mw :
  ∃ evs lg,
    mtrace (buildMesh cfg localIP entries mw) = mtrace mw ++ evs
    ∧ mlogs (buildMesh cfg localIP entries mw) = mlogs mw ++ lg
    ∧ linkAdds evs
      = (fun e => gretunFor ("fd-" +:+ e.1) localIP (IP e.2))
          <$> peersOf cfg entries
    ∧ omap (fun e => match e with
                     | InfoAddingTunnel n => Some n
                     | _ => None
                     end) lg
      = fst <$> peersOf cfg entries
    ∧ (∀ l a e, (CallAddrAdd l a, e) ∈ evs ->
         String.prefix "fd-" (LinkName l) = true
         ∧ (parseCIDR (internalIP (Prefix4 cfg) (LocalID cfg) 24) = inr a
            ∨ parseCIDR (internalIP (Prefix6 cfg) (LocalID cfg) 112) = inr a)).
Proof.
  revert mw. induction entries as [|[name node] rest IH]; intros mw.
  - exists [], []. rewrite !app_nil_r. split_and!; try done.
    intros l a e Hin. by apply elem_of_nil in Hin.
  - change (buildMesh cfg localIP ((name, node) :: rest) mw)
      with (buildMesh cfg localIP rest (meshNode cfg localIP mw (name, node))).
    destruct (meshNode_trace cfg localIP mw name node)
      as (evs1 & lg1 & Ht1 & Hl1 & Ha1 & Hi1 & Hd1).
    destruct (IH (meshNode cfg localIP mw (name, node)))
      as (evs2 & lg2 & Ht2 & Hl2 & Ha2 & Hi2 & Hd2).
    exists (evs1 ++ evs2), (lg1 ++ lg2).
    rewrite Ht2, Ht1, Hl2, Hl1, <- !app_assoc.
    rewrite (peersOf_cons cfg (name, node) rest), !fmap_app.
    split; [done|]. split; [done|]. split; [|split].
    + by rewrite linkAdds_app, Ha1, Ha2.
    + by rewrite omap_app, Hi1, Hi2.
    + intros l a e [Hin|Hin]%elem_of_app; eauto.
Qed.

(** X6. Mesh construction is best effort: whatever fails on the way, the
    kernel is asked to create exactly one tunnel for every configured node
    other than the local one, in visiting order, named [fd-] and the node's
    name, with MTU 1436, from the local address to the node's; each attempt
    is announced in the log; and every such tunnel has a name that the
    teardown's test accepts. *)
Theorem buildMesh_best_effort cfg localIP entries mw :
  ∃ evs lg,
    mtrace (buildMesh cfg localIP entries mw) = mtrace mw ++ evs
    ∧ mlogs (buildMesh cfg localIP entries mw) = mlogs mw ++ lg
    ∧ linkAdds evs
      = (fun e => mkGretun ("fd-" +:+ e.1) 1436 (ParseIP localIP) (ParseIP (IP e.2)))
          <$> peersOf cfg entries
    ∧ omap (fun e => match e with
                     | InfoAddingTunnel n => Some n
                     | _ => None
                     end) lg
      = fst <$> peersOf cfg entries
    ∧ ∀ g index, g ∈ linkAdds evs ->
        fabricLinks [mkLink (GreName g) index] = [mkLink (GreName g) index].
Proof.
  destruct (buildMesh_trace cfg localIP entries mw)
    as (evs & lg & Ht & Hl & Ha & Hi & _).
  exists evs, lg. repeat split; [done..|].
  intros g index Hg. rewrite Ha in Hg.
  apply list_elem_of_fmap in Hg as ([name node] & -> & _).
  unfold fabricLinks. rewrite filter_cons_True; [done|]. apply fd_prefix.
Qed.

(** X7. Every address that mesh construction assigns is one of the two
    internal addresses of the local node, with the masks /24 and /112,
    whichever peer the tunnel leads to; and it is assigned to a link of the
    fabric. *)
Theorem buildMesh_assigns_local_addresses cfg localIP entries mw l a e :
  (CallAddrAdd l a, e)
    ∈ drop (length (mtrace mw)) (mtrace (buildMesh cfg localIP entries mw)) ->
  String.prefix "fd-" (LinkName l) = true
  ∧ (parseCIDR (internalIP (Prefix4 cfg) (LocalID cfg) 24) = inr a
     ∨ parseCIDR (internalIP (Prefix6 cfg) (LocalID cfg) 112) = inr a).
Proof.
  destruct (buildMesh_trace cfg localIP entries mw)
    as (evs & lg & Ht & _ & _ & _ & Haddr).
  rewrite Ht, drop_app_length. apply Haddr.
Qed.

End Mesh.

(** On the sample kernel the tunnel to [b] is created with index 3; with
    the dot of the prefix forgotten the creation is all that happens. *)
Lemma addGRE_success_is_complete_witness :
  ∃ k a4 a6,
    @LinkAdd MeshSample.platform
             (gretunFor (MP := MeshSample.platform) "fd-b" "198.51.100.1" "198.51.100.2")
             (mkern MeshSample.start) = (inr 3, k)
    ∧ parseCIDR (MP := MeshSample.platform) "172.17.104.1/24" = inr a4
    ∧ parseCIDR (MP := MeshSample.platform) "fd00::1/112" = inr a6
    ∧ mtrace (snd (addGRE "fd-b" "198.51.100.1" "198.51.100.2"
                     "172.17.104.1/24" "fd00::1/112" MeshSample.start))
      = mtrace MeshSample.start
        ++ [(CallLinkAdd (gretunFor (MP := MeshSample.platform) "fd-b" "198.51.100.1" "198.51.100.2"), None);
            (CallAddrAdd (mkLink "fd-b" 3) a4, None);
            (CallAddrAdd (mkLink "fd-b" 3) a6, None);
            (CallLinkSetUp (mkLink "fd-b" 3), None)].
Proof.
  refine (proj1 (addGRE_success_is_complete "fd-b" "198.51.100.1" "198.51.100.2"
                   "172.17.104.1/24" "fd00::1/112" MeshSample.start 3 None
                   (snd (addGRE "fd-b" "198.51.100.1" "198.51.100.2"
                           "172.17.104.1/24" "fd00::1/112" MeshSample.start)) _)
                eq_refl).
  reflexivity.
Defined.

Lemma addGRE_parses_after_create_witness :
  ∃ msg,
    addGRE "fd-b" "198.51.100.1" "198.51.100.2"
           (internalIP (Prefix4 MeshSample.misconfigured) 1 24)
           "fd00::1/112" MeshSample.start
    = ((-1, Some msg),
       @mkMeshWorld MeshSample.platform
         (Linux.mkState [mkLink "lo" 1; mkLink "local" 2; mkLink "fd-b" 3] [])
         (mtrace MeshSample.start
          ++ [(CallLinkAdd (gretunFor (MP := MeshSample.platform) "fd-b" "198.51.100.1" "198.51.100.2"), None)])
         (mlogs MeshSample.start)).
Proof.
  apply (addGRE_parses_after_create "fd-b" "198.51.100.1" "198.51.100.2"
           (internalIP (Prefix4 MeshSample.misconfigured) 1 24) "fd00::1/112"
           MeshSample.start 3).
  - reflexivity.
  - exists "invalid CIDR address: 172.17.1041/24". left. reflexivity.
Defined.

Lemma buildMesh_assigns_local_addresses_witness :
  String.prefix "fd-" (LinkName (mkLink "fd-c" 4)) = true
  ∧ (parseCIDR (MP := MeshSample.platform)
       (internalIP (Prefix4 Sample.config) (LocalID Sample.config) 24)
     = inr (mkIPNet MeshSample.host4 (NetMask MeshSample.lan4))
     ∨ parseCIDR (MP := MeshSample.platform)
         (internalIP (Prefix6 Sample.config) (LocalID Sample.config) 112)
       = inr (mkIPNet MeshSample.host4 (NetMask MeshSample.lan4))).
Proof.
  apply (buildMesh_assigns_local_addresses Sample.config "198.51.100.1"
           Sample.visitABC MeshSample.start (mkLink "fd-c" 4)
           (mkIPNet MeshSample.host4 (NetMask MeshSample.lan4)) None).
  vm_compute. do 5 apply list_elem_of_further. apply list_elem_of_here.
Defined.

(** ** The probe loop, tick by tick *)

Section Ticks.
Context {P : Platform}.
Implicit Types (w : World P) (cfg : Config) (entries : list (string * Node)).

Lemma tick_cons cfg localName ping e entries w :
  tick cfg localName ping (e :: entries) w
  = tick cfg localName ping entries (probeNode cfg localName ping w e).
Proof. done. Qed.

(** The body of the loop writes one key of the candidate map, and only for
    a node other than the local one. *)
Lemma probeNode_lookup cfg localName ping w name node k :
  candidateNodes (probeNode cfg localName ping w (name, node)) !! k
  = if decide (k = name ∧ ID node ≠ LocalID cfg)
    then sampleOf cfg ping node
    else candidateNodes w !! k.
Proof.
  unfold probeNode, sampleOf.
  destruct (decide (ID node = LocalID cfg)) as [Hid|Hid].
  { rewrite decide_False by tauto. done. }
  destruct (icmpLatency _) as [[latency loss] err].
  destruct (decide (k = name)) as [->|Hk].
  - rewrite decide_True by done.
    destruct err, (isCandidate latency loss cfg); simpl;
      by rewrite ?lookup_insert_eq, ?lookup_delete_eq.
  - rewrite decide_False by tauto.
    destruct err, (isCandidate latency loss cfg); simpl;
      by rewrite ?lookup_insert_ne, ?lookup_delete_ne.
Qed.



Lemma tick_lookup_other cfg localName ping entries w k :
  (∀ node, (k, node) ∈ entries -> ID node = LocalID cfg) ->
  candidateNodes (tick cfg localName ping entries w) !! k
  = candidateNodes w !! k.
Proof.
  revert w. induction entries as [|[name node] rest IH]; intros w Hk; [done|].
  rewrite tick_cons, IH, probeNode_lookup.
  - destruct (decide (k = name ∧ _)) as [[-> Hid]|]; [|done].
    destruct Hid. apply Hk. by left.
  - intros nd Hin. apply Hk. by right.
Qed.

Lemma tick_lookup_peer cfg localName ping entries w k node :
  NoDup entries.*1 -> (k, node) ∈ entries -> ID node ≠ LocalID cfg ->
  candidateNodes (tick cfg localName ping entries w) !! k
  = sampleOf cfg ping node.
Proof.
  revert w. induction entries as [|[name nd] rest IH]; intros w Hnd Hin Hid.
  { by apply elem_of_nil in Hin. }
  rewrite fmap_cons in Hnd. apply NoDup_cons in Hnd as [Hfresh Hnd].
  rewrite tick_cons. apply elem_of_cons in Hin as [[= -> ->]|Hin].
  - rewrite tick_lookup_other, probeNode_lookup.
    + by rewrite decide_True.
    + intros x Hx. destruct Hfresh.
      by apply (list_elem_of_fmap_2 fst) in Hx.
  - by apply IH.
Qed.

(** X9. A tick recomputes the candidate map from this tick's probes alone:
    afterwards a configured node other than the local one is a candidate
    exactly when the sample just taken passes the test, and is then held
    with the latency just measured, whatever the map said before; every
    other key of the map is as it was. *)
Theorem tick_recomputes cfg localName ping entries w :
  rangeOrder (Nodes cfg) entries ->
  (∀ name node,
      Nodes cfg !! name = Some node -> ID node ≠ LocalID cfg ->
      candidateNodes (tick cfg localName ping entries w) !! name
      = sampleOf cfg ping node)
  ∧ (∀ name,
       (∀ node, Nodes cfg !! name = Some node -> ID node = LocalID cfg) ->
       candidateNodes (tick cfg localName ping entries w) !! name
       = candidateNodes w !! name).
Proof.
  intros Hord. split.
  - intros name node Hlook Hid. apply tick_lookup_peer; [|  |done].
    + unfold rangeOrder in Hord. rewrite Hord. apply NoDup_fst_map_to_list.
    + by apply (rangeOrder_elem _ _ _ _ Hord).
  - intros name Hloc. apply tick_lookup_other. intros node Hin.
    apply Hloc. by apply (rangeOrder_elem _ _ _ _ Hord).
Qed.

Lemma sampleOf_Some cfg ping node c :
  sampleOf cfg ping node = Some c ->
  c = withLatency node (Latency c) ∧ Latency c <= LatencyThreshold cfg.
Proof.
  unfold sampleOf. destruct (icmpLatency _) as [[latency loss] err].
  unfold isCandidate. destruct (latency <=? LatencyThreshold cfg) eqn:Hle;
    [|done]. destruct (PrimFloat.ltb _ _); [|done]. simpl.
  intros [= <-]. split; [done|]. simpl. by apply Z.leb_le.
Qed.

Lemma probeNode_sound cfg localName ping w name node :
  Nodes cfg !! name = Some node ->
  candidatesSound cfg (candidateNodes w) ->
  candidatesSound cfg (candidateNodes (probeNode cfg localName ping w (name, node))).
Proof.
  intros Hlook Hsound k c. rewrite probeNode_lookup.
  destruct (decide (k = name ∧ _)) as [[-> Hid]|]; [|apply Hsound].
  intros [-> Hle]%sampleOf_Some. by exists node.
Qed.

(** X10. The candidate map only ever holds configured nodes other than the
    local one, each with the record of the configuration but for a latency
    within the threshold: a tick keeps this true, and it is true of the empty
    map the agent starts with. *)
Theorem tick_keeps_candidates_sound cfg localName ping entries w :
  rangeOrder (Nodes cfg) entries ->
  candidatesSound cfg (candidateNodes w) ->
  candidatesSound cfg (candidateNodes (tick cfg localName ping entries w))
  ∧ candidatesSound cfg ∅.
Proof.
  intros Hord Hsound. split; [|intros k c; by rewrite lookup_empty].
  assert (Forall (fun e => Nodes cfg !! e.1 = Some e.2) entries) as Hall.
  { apply Forall_forall. intros e He.
    exact (rangeOrder_lookup_of_elem _ _ e Hord He). }
  clear Hord. revert w Hsound.
  induction Hall as [|[name node] rest Hlook _ IH]; intros w Hsound; [done|].
  rewrite tick_cons. apply IH. by apply probeNode_sound.
Qed.

Lemma probeNode_gauge cfg localName ping w name node :
  ID node ≠ LocalID cfg ->
  metricCandidateNodes (probeNode cfg localName ping w (name, node))
  = Z.of_nat (size (candidateNodes (probeNode cfg localName ping w (name, node)))).
Proof.
  intros Hid. unfold probeNode. rewrite decide_False by done.
  destruct (icmpLatency _) as [[latency loss] [err|]];
    by destruct (isCandidate latency loss cfg).
Qed.

Lemma tick_gauge_from cfg localName ping entries w :
  metricCandidateNodes w = Z.of_nat (size (candidateNodes w))
  ∨ Exists (fun e => ID e.2 ≠ LocalID cfg) entries ->
  metricCandidateNodes (tick cfg localName ping entries w)
  = Z.of_nat (size (candidateNodes (tick cfg localName ping entries w))).
Proof.
  revert w. induction entries as [|[name node] rest IH]; intros w Hor.
  - destruct Hor as [?|Hex]; [done|]. by apply Exists_nil in Hex.
  - rewrite tick_cons. apply IH.
    destruct (decide (ID node = LocalID cfg)) as [Hid|Hid].
    + unfold probeNode. rewrite decide_True by done.
      destruct Hor as [?|[?|?]%Exists_cons]; [by left|done|by right].
    + left. by apply probeNode_gauge.
Qed.

(** X11. After a tick that probed at least one node, the candidate gauge
    equals the number of entries of the candidate map. *)
Theorem tick_gauge_counts_candidates cfg localName ping entries w :
  Exists (fun e => ID e.2 ≠ LocalID cfg) entries ->
  metricCandidateNodes (tick cfg localName ping entries w)
  = Z.of_nat (size (candidateNodes (tick cfg localName ping entries w))).
Proof. intros Hex. apply tick_gauge_from. by right. Qed.

End Ticks.

Lemma tick_recomputes_witness :
  candidateNodes (tick Sample.config "a" Sample.pingSilent Sample.visitABC
                       Sample.sampled) !! "b"
  = sampleOf Sample.config Sample.pingSilent Sample.B.
Proof.
  apply (proj1 (tick_recomputes Sample.config "a" Sample.pingSilent
                  Sample.visitABC Sample.sampled sample_nodes_order)).
  - reflexivity.
  - vm_compute. discriminate.
Defined.

Lemma tick_keeps_candidates_sound_witness :
  candidatesSound Sample.config
    (candidateNodes (tick Sample.config "a" Sample.pingDown Sample.visitABC
                          (Sample.world0 Sample.linux Sample.boot))).
Proof.
  assert (candidatesSound Sample.config ∅) as Hempty.
  { intros k c H. by rewrite lookup_empty in H. }
  exact (proj1 (tick_keeps_candidates_sound Sample.config "a" Sample.pingDown
                  Sample.visitABC (Sample.world0 Sample.linux Sample.boot)
                  sample_nodes_order Hempty)).
Defined.

Lemma tick_gauge_counts_candidates_witness :
  metricCandidateNodes (tick Sample.config "a" Sample.pingDown Sample.visitABC
                             Sample.sampled) = 2.
Proof.
  rewrite (tick_gauge_counts_candidates Sample.config "a" Sample.pingDown
             Sample.visitABC Sample.sampled).
  - reflexivity.
  - apply Exists_cons. right. apply Exists_cons. left. vm_compute. discriminate.
Defined.

(** ** What the scan can return, and where a reroute can go *)

Section Targets.
Context {P : Platform}.
Implicit Types (w : World P) (cfg : Config) (entries : list (string * Node)).

Lemma last_elem_of {A} (l : list A) d : List.last l d ∈ d :: l.
Proof.
  revert d. induction l as [|a l IH]; intros d; [by left|].
  rewrite last_cons_default. right. apply IH.
Qed.

Lemma closestNode_in_entries sem entries :
  ((closestNode sem entries).1 = None ↔ entries = [])
  ∧ ∀ node name,
      closestNode sem entries = (Some node, name) ->
      node ∈ entries.*2 ∧ name ∈ entries.*1.
Proof.
  destruct entries as [|[name0 node0] rest].
  { split; [done|]. intros node name. by destruct sem. }
  destruct sem.
  - destruct (closestNode_iter_first_min ((name0, node0) :: rest))
      as (pre & name & node & post & Hsplit & Hres & _); [done|].
    rewrite Hres. split; [done|]. intros nd nm [= <- <-]. rewrite Hsplit.
    rewrite !fmap_app, !fmap_cons. split; apply elem_of_app; right; by left.
  - unfold closestNode. cbn [closestLoop addrOf].
    rewrite closestLoop_shared. simpl. split; [done|].
    intros nd nm [= <- <-]. split; [apply last_elem_of|by left].
Qed.

(** X12. Under either reading of the loop variable, [closestNode] returns
    nil exactly on an empty scan, and otherwise the record of an entry it
    visited and the name of an entry it visited: it makes up neither. *)
Theorem closestNode_returns_entries sem entries :
  ((closestNode sem entries).1 = None ↔ entries = [])
  ∧ ∀ node name,
      closestNode sem entries = (Some node, name) ->
      node ∈ entries.*2 ∧ name ∈ entries.*1.
Proof. apply closestNode_in_entries. Qed.

(** X13. While the candidate map holds only configured nodes other than the
    local one, a [/reroute] with no target, whenever it answers, has asked
    for routes to the internal addresses of such a node: never to those of
    the local node, never to an ID that is not configured. *)
Theorem reroute_targets_configured_peer sem cfg visit w body w' :
  rangeOrder (candidateNodes w) (visit (candidateNodes w)) ->
  candidatesSound cfg (candidateNodes w) ->
  rerouteHandler sem cfg visit "" w = (Responded body, w') ->
  ∃ name node r,
    Nodes cfg !! name = Some node
    ∧ ID node ≠ LocalID cfg
    ∧ setReroute true (Prefixes cfg)
        (internalIP (Prefix4 cfg) (ID node) 0)
        (internalIP (Prefix6 cfg) (ID node) 0) w = (r, w').
Proof.
  intros Hord Hsound. unfold rerouteHandler. rewrite decide_True by done.
  destruct (closestNode sem (visit (candidateNodes w))) as [[c|] nm] eqn:Hc;
    [|done].
  apply (proj2 (closestNode_in_entries sem _)) in Hc as [Hin _].
  apply list_elem_of_fmap in Hin as ([k c'] & -> & Hin). cbn [snd].
  apply (rangeOrder_elem _ _ _ _ Hord) in Hin.
  destruct (Hsound _ _ Hin) as (node & Hlook & Hid & Hrec & _).
  assert (ID c' = ID node) as -> by by rewrite Hrec.
  destruct (setReroute true (Prefixes cfg) _ _ w) as [[err|] w1] eqn:Hs;
    intros [= _ <-]; by eexists k, node, _.
Qed.

(** X19. A target given by name is looked up in the configuration and in
    nothing else: whether it is a candidate, and whether it is the local
    node itself, plays no part. The handler asks for routes to the internal
    addresses of the node of that name and reports what [setReroute]
    returned, under that name. *)
Theorem reroute_named_target sem cfg visit to node w :
  to ≠ "" -> Nodes cfg !! to = Some node ->
  rerouteHandler sem cfg visit to w
  = let '(r, w') := setReroute true (Prefixes cfg)
                      (internalIP (Prefix4 cfg) (ID node) 0)
                      (internalIP (Prefix6 cfg) (ID node) 0) w in
    (Responded match r with
               | None => "Rerouting to " +:+ to +:+ nl
               | Some err => "Error rerouting to " +:+ to +:+ ": " +:+ err +:+ nl
               end, w').
Proof.
  intros Hto Hlook. unfold rerouteHandler. rewrite decide_False by done.
  rewrite Hlook. cbn [default from_option].
  by destruct (setReroute true (Prefixes cfg) _ _ w) as [[err|] w'].
Qed.

(** X14. The calls of a transition. Into the rerouted state [setReroute]
    only deletes the link [local] and adds, for prefixes of the list that
    parse, a route of priority 1 whose gateway is the IPv4 next hop for an
    IPv4 prefix and the IPv6 next hop otherwise. Out of it, it only deletes
    the route to prefixes of the list, naming no gateway, and runs
    [net.sh]. *)
Theorem setReroute_calls (reroute : bool) prefixes nh4 nh6 w r w' c res :
  setReroute reroute prefixes nh4 nh6 w = (r, w') ->
  (c, res) ∈ newEvents w w' ->
  if reroute then
    c = CallLinkDel (mkLink "local" 0)
    ∨ ∃ p n, p ∈ prefixes ∧ ParseCIDR p = inr n
             ∧ c = CallRouteAdd
                     (mkRoute n (ParseIP (if decide (To4 (NetAddr n) ≠ [])
                                          then nh4 else nh6)) 1 0)
  else
    c = CallNetSh
    ∨ ∃ p n, p ∈ prefixes ∧ ParseCIDR p = inr n
             ∧ c = CallRouteDel (mkRoute n [] 0 0).
Proof.
  assert (∀ mk evs r0,
            Ran (netPlan mk) prefixes evs r0 -> (c, res) ∈ evs ->
            ∃ p n, p ∈ prefixes ∧ ParseCIDR p = inr n ∧ c = mk n) as Hplan.
  { intros mk evs r0 Hran Hin.
    destruct (Ran_calls_planned _ _ _ _ _ _ Hran Hin) as (p & Hp & Hc).
    unfold netPlan in Hc. destruct (ParseCIDR p) as [|n] eqn:Hparse; [done|].
    injection Hc as <-. by exists p, n. }
  intros Hs Hin. destruct reroute.
  - apply setReroute_enter_inv in Hs as (r0 & evs & Ht & _ & Hr).
    rewrite (newEvents_app _ _ _ Ht) in Hin.
    apply elem_of_cons in Hin as [[= -> _]|Hin]; [by left|]. right.
    destruct r0 as [err|].
    + destruct Hr as [_ ->]. by apply elem_of_nil in Hin.
    + apply (Hplan _ _ _ Hr Hin).
  - apply setReroute_leave_inv in Hs as (r0 & evs & Hran & Hr).
    destruct r0 as [err|].
    + destruct Hr as [_ Ht]. rewrite (newEvents_app _ _ _ Ht) in Hin.
      right. apply (Hplan _ _ _ Hran Hin).
    + destruct Hr as [Ht _]. rewrite (newEvents_app _ _ _ Ht) in Hin.
      apply elem_of_app in Hin as [Hin|[= -> _]%list_elem_of_singleton];
        [right|by left].
      apply (Hplan _ _ _ Hran Hin).
Qed.

(** X15. [setReroute] touches nothing in the process but the rerouting
    gauge: candidates, the other gauges and the log are as before. The
    gauge reads 1 after every attempt to reroute, also one that failed
    before anything changed; it is lowered to 0 only by a transition back
    that succeeded in full, and a failed one leaves it as it was. *)
Theorem setReroute_memory (reroute : bool) prefixes nh4 nh6 w r w' :
  setReroute reroute prefixes nh4 nh6 w = (r, w') ->
  candidateNodes w' = candidateNodes w
  ∧ metricCandidateNodes w' = metricCandidateNodes w
  ∧ metricNodeLatency w' = metricNodeLatency w
  ∧ logs w' = logs w
  ∧ metricIsRerouting w'
    = if reroute then 1
      else match r with
           | None => 0
           | Some _ => metricIsRerouting w
           end.
Proof.
  unfold setReroute, setPFNet. destruct reroute.
  - destruct (call _ (setIsRerouting 1 w)) as [[err|] w1] eqn:Hc;
      apply call_inv in Hc as (_ & _ & Hm1 & Hg1 & Hcg1 & Hl1 & Hlg1).
    + by intros [= <- <-].
    + rewrite (rangeErr_ext _ (viaCall (addPlan nh4 nh6)))
        by apply addRoute_plan.
      intros (_ & _ & _ & Hm2 & Hg2 & Hcg2 & Hl2 & Hlg2)%rangeErr_Ran.
      simpl in *. split_and!; congruence.
  - rewrite (rangeErr_ext _ (viaCall delPlan)) by apply delRoute_plan.
    destruct (rangeErr _ prefixes w) as [[err|] w1] eqn:Hrun;
      apply rangeErr_Ran in Hrun as (_ & _ & _ & Hm1 & Hg1 & Hcg1 & Hl1 & Hlg1).
    + by intros [= <- <-].
    + destruct (call CallNetSh w1) as [[err|] w2] eqn:Hc;
        apply call_inv in Hc as (_ & _ & Hm2 & Hg2 & Hcg2 & Hl2 & Hlg2);
        intros [= <- <-]; simpl; split_and!; congruence.
Qed.

(** X16. Teardown asks the kernel for nothing but the list of links and the
    deletion of links it was listed whose name starts with [fd-]: no other
    link is deleted, and no route or local handling is touched. *)
Theorem teardownGRE_only_fabric w r w' c res :
  teardownGRE w = (r, w') ->
  (c, res) ∈ newEvents w w' ->
  c = CallLinkList
  ∨ ∃ ls l, LinkList (kern w) = inr ls ∧ l ∈ ls
            ∧ String.prefix "fd-" (LinkName l) = true
            ∧ c = CallLinkDel l.
Proof.
  unfold teardownGRE.
  destruct (call CallLinkList w) as [r0 w0] eqn:Hc.
  apply call_inv in Hc as (_ & Ht0 & _). simpl.
  destruct (LinkList (kern w)) as [err|ls] eqn:Hlist.
  - intros [= <- <-]. rewrite (newEvents_app _ _ _ Ht0).
    intros [= -> _]%list_elem_of_singleton. by left.
  - rewrite (rangeErr_ext _ (viaCall fabricPlan)) by apply delIfFabric_plan.
    intros (evs & Ht & Hran & _)%rangeErr_Ran.
    assert (trace w' = trace w ++ (CallLinkList, r0) :: evs) as Ht'.
    { by rewrite Ht, Ht0, <- app_assoc. }
    rewrite (newEvents_app _ _ _ Ht').
    intros [[= -> _]|Hin]%elem_of_cons; [by left|]. right.
    destruct (Ran_calls_planned _ _ _ _ _ _ Hran Hin) as (l & Hl & Hp).
    apply fabricPlan_call in Hp as [-> Hpre]. by exists ls, l.
Qed.

End Targets.

Lemma sampled_sound : candidatesSound Sample.config (candidateNodes Sample.sampled).
Proof.
  intros name c H. unfold Sample.sampled in H. cbn [candidateNodes] in H.
  apply lookup_singleton_Some in H as [<- <-].
  exists Sample.B. split_and!; [reflexivity| |reflexivity|];
    vm_compute; discriminate.
Qed.

Lemma reroute_targets_configured_peer_witness :
  ∃ name node r,
    Nodes Sample.config !! name = Some node
    ∧ ID node ≠ LocalID Sample.config
    ∧ setReroute true (Prefixes Sample.config)
        (internalIP (Prefix4 Sample.config) (ID node) 0)
        (internalIP (Prefix6 Sample.config) (ID node) 0) Sample.sampled
      = (r, snd (rerouteHandler PerIteration Sample.config map_to_list ""
                   Sample.sampled)).
Proof.
  apply (reroute_targets_configured_peer PerIteration Sample.config map_to_list
           Sample.sampled ("Rerouting to b" +:+ nl)).
  - by unfold rangeOrder.
  - exact sampled_sound.
  - reflexivity.
Defined.

Lemma setReroute_calls_witness :
  CallRouteAdd (routeFor (P := Sample.linux) Sample.net4 Sample.b4 Sample.b6)
  = CallLinkDel (mkLink "local" 0)
  ∨ ∃ p n, p ∈ Prefixes Sample.config ∧ @ParseCIDR Sample.linux p = inr n
           ∧ CallRouteAdd (routeFor (P := Sample.linux) Sample.net4 Sample.b4 Sample.b6)
             = CallRouteAdd
                 (mkRoute n (@ParseIP Sample.linux
                               (if decide (To4 (NetAddr n) ≠ [])
                                then Sample.b4 else Sample.b6)) 1 0).
Proof.
  apply (setReroute_calls true (Prefixes Sample.config) Sample.b4 Sample.b6
           Sample.started None Sample.rerouted _ None).
  - reflexivity.
  - vm_compute. apply list_elem_of_further, list_elem_of_here.
Defined.

Lemma setReroute_memory_witness :
  candidateNodes Sample.rerouted = candidateNodes Sample.started
  ∧ metricCandidateNodes Sample.rerouted = metricCandidateNodes Sample.started
  ∧ metricNodeLatency Sample.rerouted = metricNodeLatency Sample.started
  ∧ logs Sample.rerouted = logs Sample.started
  ∧ metricIsRerouting Sample.rerouted = 1.
Proof.
  apply (setReroute_memory true (Prefixes Sample.config) Sample.b4 Sample.b6
           Sample.started None Sample.rerouted).
  reflexivity.
Defined.

Lemma teardownGRE_only_fabric_witness :
  CallLinkDel (mkLink "fd-b" 3) = CallLinkList
  ∨ ∃ ls l, @LinkList Sample.linux (kern Sample.started) = inr ls ∧ l ∈ ls
            ∧ String.prefix "fd-" (LinkName l) = true
            ∧ CallLinkDel (mkLink "fd-b" 3) = CallLinkDel l.
Proof.
  apply (teardownGRE_only_fabric Sample.started None
           (snd (teardownGRE Sample.started)) _ None).
  - reflexivity.
  - vm_compute. apply list_elem_of_further, list_elem_of_here.
Defined.

(** ** There and back, on the reference kernel *)

Section RoundTrip.
Variable parseCIDR : string -> error + IPNet.
Variable parseIP : string -> NetIP.
Variable netsh : Linux.State -> option error * Linux.State.

Local Notation "'linuxP'" := (Linux.platform parseCIDR parseIP netsh).

Implicit Types (k : Linux.State) (w : World linuxP).

Lemma parseAll_cons_inv p ps nets :
  parseAll (P := linuxP) (p :: ps) = Some nets ->
  ∃ n ns, parseCIDR p = inr n ∧ parseAll (P := linuxP) ps = Some ns
          ∧ nets = n :: ns.
Proof.
  unfold parseAll. cbn [mapM]. simpl.
  destruct (parseCIDR p) as [|n]; [done|]. simpl.
  destruct (mapM _ ps) as [ns|]; [|done]. simpl. intros [= <-]. by exists n, ns.
Qed.

Lemma parseAll_elem prefixes nets n :
  parseAll (P := linuxP) prefixes = Some nets -> n ∈ nets ->
  ∃ p, p ∈ prefixes ∧ parseCIDR p = inr n.
Proof.
  revert nets. induction prefixes as [|p ps IH]; intros nets.
  - intros [= <-] Hin. by apply elem_of_nil in Hin.
  - intros (n0 & ns & Hp & Hps & ->)%parseAll_cons_inv [->|Hin]%elem_of_cons.
    + exists p. split; [by left|done].
    + destruct (IH _ Hps Hin) as (q & ? & ?). exists q. split; [by right|done].
Qed.

(** Routes are added at the end of the table, one per prefix. *)
Lemma addRoutes_table prefixes nh4 nh6 w w' :
  rangeErr (fun prefix => addRoute prefix nh4 nh6) prefixes w = (None, w') ->
  ∃ nets, parseAll (P := linuxP) prefixes = Some nets
          ∧ Linux.routes (kern w')
            = Linux.routes (kern w)
              ++ ((fun n => routeFor (P := linuxP) n nh4 nh6) <$> nets)
          ∧ Linux.links (kern w') = Linux.links (kern w).
Proof.
  revert w. induction prefixes as [|p ps IH]; intros w; simpl.
  - intros [= <-]. exists []. by rewrite app_nil_r.
  - unfold addRoute at 1.
    destruct (ParseCIDR p) as [err|n] eqn:Hp; [done|].
    change (parseCIDR p = inr n) in Hp.
    unfold call. simpl. unfold Linux.routeAdd.
    destruct (bool_decide _); simpl; [done|].
    intros (nets & Hn & Hr & Hl)%IH. simpl in *.
    exists (n :: nets). split_and!.
    + unfold parseAll in *. cbn [mapM].
      change (ParseCIDR p) with (parseCIDR p). by rewrite Hp, Hn.
    + by rewrite Hr, <- app_assoc.
    + done.
Qed.

Lemma removeFirst_app d rs0 r rest :
  d ∉ Dst <$> rs0 -> Dst r = d ->
  Linux.removeFirst d (rs0 ++ r :: rest) = Some (rs0 ++ rest).
Proof.
  intros Hnotin Hr. induction rs0 as [|r0 rs0 IH]; simpl.
  - by rewrite decide_True.
  - rewrite fmap_cons in Hnotin. apply not_elem_of_cons in Hnotin as [Hne Hnotin].
    rewrite decide_False by done. by rewrite IH.
Qed.

(** Deleting the route of every prefix, in order, takes them off the end
    again when no route before them goes to the same destination. *)
Lemma delRoutes_table prefixes nets (mk : IPNet -> Route) rs0 w :
  (∀ n, Dst (mk n) = n) ->
  parseAll (P := linuxP) prefixes = Some nets ->
  Linux.routes (kern w) = rs0 ++ (mk <$> nets) ->
  (∀ n, n ∈ nets -> n ∉ Dst <$> rs0) ->
  ∃ w', rangeErr delRoute prefixes w = (None, w')
        ∧ Linux.routes (kern w') = rs0
        ∧ Linux.links (kern w') = Linux.links (kern w).
Proof.
  intros Hmk. revert nets w. induction prefixes as [|p ps IH]; intros nets w.
  - intros [= <-] Hr _. exists w. simpl in Hr. by rewrite app_nil_r in Hr.
  - intros (n & ns & Hp & Hps & ->)%parseAll_cons_inv Hr Hfresh.
    simpl. unfold delRoute at 1.
    change (ParseCIDR p) with (parseCIDR p). rewrite Hp.
    unfold call. simpl. unfold Linux.routeDel. simpl.
    rewrite Hr, fmap_cons, removeFirst_app;
      [|apply Hfresh; by left|apply Hmk].
    simpl.
    match goal with
    | |- ∃ w', rangeErr delRoute ps ?w0 = _ ∧ _ =>
        destruct (IH ns w0) as (w' & Hrun & Hr' & Hl'); [done|done| |]
    end.
    { intros m Hm. apply Hfresh. by right. }
    by exists w'.
Qed.

Lemma linkDel_routes l k r k' :
  Linux.linkDel l k = (r, k') -> Linux.routes k' = Linux.routes k.
Proof.
  unfold Linux.linkDel. destruct (decide _); [by intros [= <- <-]|].
  destruct (existsb _ _); by intros [= <- <-].
Qed.

(** X17. On the reference kernel, after a reroute that succeeded, the way
    back finds every route the reroute installed: provided no prefix of the
    list was routed before the reroute, every deletion succeeds, the route
    table is exactly what it was before the reroute when [net.sh] is run,
    the links are as the reroute left them, and what [setReroute] returns
    is what [net.sh] returned. *)
Theorem reroute_then_noreroute prefixes nh4 nh6 nh4' nh6' w w1 r2 w2 :
  setReroute true prefixes nh4 nh6 w = (None, w1) ->
  (∀ p n, p ∈ prefixes -> parseCIDR p = inr n ->
          n ∉ Dst <$> Linux.routes (kern w)) ->
  setReroute false prefixes nh4' nh6' w1 = (r2, w2) ->
  ∃ k, Linux.routes k = Linux.routes (kern w)
       ∧ Linux.links k = Linux.links (kern w1)
       ∧ netsh k = (r2, kern w2).
Proof.
  unfold setReroute, setPFNet. intros Henter Hfresh.
  destruct (call _ (setIsRerouting 1 w)) as [[err|] w0] eqn:Hc; [done|].
  apply call_inv in Hc as (Hk & _ & _). simpl in Hk.
  apply linkDel_routes in Hk.
  apply addRoutes_table in Henter as (nets & Hn & Hr & Hl).
  rewrite Hk in Hr.
  destruct (delRoutes_table prefixes nets
              (fun n => routeFor (P := linuxP) n nh4 nh6)
              (Linux.routes (kern w)) w1)
    as (w' & Hdel & Hr' & Hl'); [done|done|done| |].
  { intros n Hin. destruct (parseAll_elem _ _ _ Hn Hin) as (p & Hp & Hparse).
    by eapply Hfresh. }
  rewrite Hdel. unfold call. simpl.
  destruct (netsh (kern w')) as [[err|] k2] eqn:Hsh;
    intros [= <- <-]; by exists (kern w').
Qed.

End RoundTrip.

Lemma reroute_then_noreroute_witness :
  ∃ k, Linux.routes k = Linux.routes (kern Sample.started)
       ∧ Linux.links k = Linux.links (kern Sample.rerouted)
       ∧ Sample.netsh k
         = (None, kern (snd (setReroute false (Prefixes Sample.config) "" ""
                               Sample.rerouted))).
Proof.
  apply (reroute_then_noreroute Sample.parseCIDR Sample.parseIP Sample.netsh
           (Prefixes Sample.config) Sample.b4 Sample.b6 "" ""
           Sample.started Sample.rerouted None
           (snd (setReroute false (Prefixes Sample.config) "" "" Sample.rerouted))).
  - reflexivity.
  - intros p n _ _ Hin. by apply elem_of_nil in Hin.
  - reflexivity.
Defined.

(** In the sample, [c] is no candidate and can be named all the same; and a
    probe that cannot run makes [b] a candidate at 0. *)
Lemma reroute_named_target_witness :
  candidateNodes Sample.sampled !! "c" = None
  ∧ ∃ w', rerouteHandler PerIteration Sample.config map_to_list "c" Sample.sampled
          = (Responded ("Rerouting to c" +:+ nl), w')
          ∧ Gw <$> Linux.routes (kern w')
            = [[172; 17; 104; 3]; [253; 0; 0; 0; 0; 0; 0; 0; 0; 0; 0; 0; 0; 0; 0; 3]].
Proof.
  split; [reflexivity|].
  rewrite (reroute_named_target PerIteration Sample.config map_to_list "c"
             Sample.C Sample.sampled);
    [|vm_compute; discriminate|reflexivity].
  eexists. split; reflexivity.
Defined.

Lemma probeNode_error_witness :
  let w' := probeNode Sample.config "a" Sample.pingDown Sample.sampled
                      ("b", Sample.B) in
  logs w' = logs Sample.sampled ++ [WarnPing "b" "socket: operation not permitted"]
  ∧ candidateNodes w'
    = (if isCandidate 0 0%float Sample.config
       then <["b" := withLatency Sample.B 0]> (candidateNodes Sample.sampled)
       else delete "b" (candidateNodes Sample.sampled))
  ∧ metricNodeLatency w' !! ("a", "b") = Some 0.
Proof.
  apply (probeNode_error Sample.config "a" Sample.pingDown Sample.sampled
           "b" Sample.B "socket: operation not permitted").
  - vm_compute. discriminate.
  - reflexivity.
Defined.
